(** * dicedb_py: wire types, framed socket I/O, session and watch loop

    A shallow embedding of [dicedb_py/wire.py], [dicedb_py/io.py] and
    [dicedb_py/client.py].  Python objects with mutable fields become
    records threaded through a state-and-exception monad; the socket
    layer is a scripted environment whose outcomes the code consumes in
    program order, together with a chronological trace of the socket
    calls the code makes. *)

From Stdlib Require Import String Ascii List ZArith Lia Bool PrimFloat DecimalString.
From Stdlib Require Import Strings.Byte.
Import ListNotations.
Open Scope string_scope.
Open Scope list_scope.

Set Implicit Arguments.

(** ** Python values, exceptions and results *)

Definition bytes := list Byte.byte.

(** [len(b)] as a Python integer. *)
Definition len (A : Type) (l : list A) : Z := Z.of_nat (length l).

(** The exception classes the code raises, catches or can meet.  All of
    them derive from [Exception]; [socket.error] is [OSError], and the
    builtin [ConnectionError] derives from it. *)
Inductive exn_class : Type :=
  | OSError
  | ConnectionError
  | EOFError
  | IndexError
  | TypeError
  | AttributeError
  | RecursionError
  | UnpicklingError.

(** An exception instance: its class and [str(e)]. *)
Record exn : Type := Exn { exn_cls : exn_class; exn_str : string }.

(** [isinstance(e, socket.error)], what [except socket.error] catches. *)
Definition is_socket_error (e : exn) : bool :=
  match exn_cls e with
  | OSError | ConnectionError => true
  | _ => false
  end.

Inductive PyResult (A : Type) : Type :=
  | Ret (a : A)
  | Raise (e : exn).
Arguments Ret {A} a.
Arguments Raise {A} e.

(** Statements run against a mutable state [S]; a raised exception keeps
    the state it was raised in. *)
Definition M (S A : Type) : Type := S -> PyResult A * S.

Definition ret {S A : Type} (a : A) : M S A := fun s => (Ret a, s).
Definition raise {S A : Type} (e : exn) : M S A := fun s => (Raise e, s).
Definition bind {S A B : Type} (m : M S A) (k : A -> M S B) : M S B :=
  fun s => match m s with
           | (Ret a, s') => k a s'
           | (Raise e, s') => (Raise e, s')
           end.
Definition gets {S A : Type} (f : S -> A) : M S A := fun s => (Ret (f s), s).
Definition modify {S : Type} (f : S -> S) : M S unit := fun s => (Ret tt, f s).

(** [try: body  except <catches> as e: handler e]. *)
Definition try_except {S A : Type} (body : M S A) (catches : exn -> bool)
    (handler : exn -> M S A) : M S A :=
  fun s => match body s with
           | (Ret a, s') => (Ret a, s')
           | (Raise e, s') => if catches e then handler e s' else (Raise e, s')
           end.

(** [except Exception] catches every instance of the classes above. *)
Definition any_Exception (e : exn) : bool := true.

Declare Scope py_scope.
Delimit Scope py_scope with py.
Notation "x <- m ;; k" := (bind m (fun x => k))
  (at level 61, m at next level, right associativity) : py_scope.
Notation "m ;;; k" := (bind m (fun _ => k))
  (at level 61, right associativity) : py_scope.
Open Scope py_scope.

(** [needle in hay] on Python strings. *)
Fixpoint str_in (needle hay : string) : bool :=
  prefix needle hay ||
  match hay with
  | EmptyString => false
  | String _ hay' => str_in needle hay'
  end.

(** Truthiness of a [str]. *)
Definition truthy (s : string) : bool :=
  match s with EmptyString => false | _ => true end.

(** ** wire.py *)

Module wire.

Record Command : Type := mkCommand { cmd : string; args : list string }.

Inductive ValueType : Type := NIL | INT | STR | FLOAT | BYTES.

Definition ValueType_eqb (a b : ValueType) : bool :=
  match a, b with
  | NIL, NIL | INT, INT | STR, STR | FLOAT, FLOAT | BYTES, BYTES => true
  | _, _ => false
  end.

(** What the [value: Any] field holds. *)
Inductive pyval : Type :=
  | PyNone
  | PyInt (z : Z)
  | PyStr (s : string)
  | PyFloat (f : float)
  | PyBytes (b : bytes).

Record Response : Type := mkResponse {
  err : string;
  value_type : option ValueType;
  value : pyval;
  attrs : option (list (string * pyval));
  v_list : option (list pyval);
  v_ss_map : option (list (string * string))
}.

(** [Response(err=msg)]: every other field keeps its dataclass default. *)
Definition error_response (msg : string) : Response :=
  mkResponse msg None PyNone None None None.

(** [self.value_type == ValueType.X]; the default tag is [None]. *)
Definition tag_is (r : Response) (t : ValueType) : bool :=
  match value_type r with
  | Some t' => ValueType_eqb t' t
  | None => false
  end.

Definition v_nil (r : Response) : bool := tag_is r NIL.
Definition v_int (r : Response) : pyval :=
  if tag_is r INT then value r else PyInt 0.
Definition v_str (r : Response) : pyval :=
  if tag_is r STR then value r else PyStr "".
Definition v_float (r : Response) : pyval :=
  if tag_is r FLOAT then value r else PyFloat 0%float.
Definition v_bytes (r : Response) : pyval :=
  if tag_is r BYTES then value r else PyBytes [].

End wire.

(** ** The socket layer

    [socket.socket] objects are numbered in creation order.  The network
    is a script: every [connect], [sendall] and [recv] the code performs
    takes the next scripted outcome of its kind, whichever socket it is
    called on, and a script that has run out stands for a network that has
    gone away ([connect] is refused, [sendall] hits a broken pipe, [recv]
    times out after the 5 second socket timeout).  The calls that change
    what the peer sees are logged, oldest first. *)

Module socket.

Definition fd : Type := nat.

Inductive recv_outcome : Type :=
  | RecvData (chunk : bytes)
  | RecvRaise (e : exn).

Inductive io_event : Type :=
  | EvConnect (s : fd) (host : string) (port : Z)
  | EvSendall (s : fd) (data : bytes)
  | EvClose (s : fd)
  | EvThreadStart.

Record World : Type := mkWorld {
  connects : list (option exn);
  sends : list (option exn);
  recvs : list recv_outcome;
  next_fd : fd;
  next_obj : nat;
  trace : list io_event
}.

Definition log (ev : io_event) (w : World) : World :=
  mkWorld (connects w) (sends w) (recvs w) (next_fd w) (next_obj w)
          (trace w ++ [ev]).

Definition set_connects (l : list (option exn)) (w : World) : World :=
  mkWorld l (sends w) (recvs w) (next_fd w) (next_obj w) (trace w).

Definition set_sends (l : list (option exn)) (w : World) : World :=
  mkWorld (connects w) l (recvs w) (next_fd w) (next_obj w) (trace w).

Definition set_recvs (l : list recv_outcome) (w : World) : World :=
  mkWorld (connects w) (sends w) l (next_fd w) (next_obj w) (trace w).

Definition refused : exn := Exn OSError "[Errno 111] Connection refused".
Definition broken_pipe : exn := Exn OSError "[Errno 32] Broken pipe".
Definition timed_out : exn := Exn OSError "timed out".

(** [socket.socket(AF_INET, SOCK_STREAM)]: a fresh socket object. *)
Definition socket : M World fd :=
  fun w => (Ret (next_fd w),
            mkWorld (connects w) (sends w) (recvs w) (S (next_fd w))
                    (next_obj w) (trace w)).

(** A fresh Python object ([threading.Event()], a new list). *)
Definition new_object : M World nat :=
  fun w => (Ret (next_obj w),
            mkWorld (connects w) (sends w) (recvs w) (next_fd w)
                    (S (next_obj w)) (trace w)).

(** [s.connect((host, port))]. *)
Definition connect (s : fd) (host : string) (port : Z) : M World unit :=
  fun w =>
    let w := log (EvConnect s host port) w in
    match connects w with
    | [] => (Raise refused, w)
    | None :: rest => (Ret tt, set_connects rest w)
    | Some e :: rest => (Raise e, set_connects rest w)
    end.

(** [s.sendall(data)]. *)
Definition sendall (s : fd) (data : bytes) : M World unit :=
  fun w =>
    let w := log (EvSendall s data) w in
    match sends w with
    | [] => (Raise broken_pipe, w)
    | None :: rest => (Ret tt, set_sends rest w)
    | Some e :: rest => (Raise e, set_sends rest w)
    end.

(** [s.close()]. *)
Definition close (s : fd) : M World unit :=
  fun w => (Ret tt, log (EvClose s) w).

(** What attribute access on [None] raises. *)
Definition none_has_no (attr : string) : exn :=
  Exn AttributeError ("'NoneType' object has no attribute '" ++ attr ++ "'").

End socket.

(** ** io.py *)

Module dice_io.
Import wire socket.

Definition MAX_REQUEST_SIZE : Z := (32 * 1024 * 1024)%Z.
Definition IO_BUFFER_SIZE : Z := (16 * 1024)%Z.
Definition IDLE_TIMEOUT : Z := (30 * 60)%Z.

(** How one run of the [while True] loop of [read] ends. *)
Inductive loop_exit : Type :=
  | Break (result : bytes)
  | Return (r : Response)
  | Propagate (e : exn).

(** [conn.recv] raised [e] inside the [try] of the loop. *)
Definition recv_raised (e : exn) : loop_exit :=
  if is_socket_error e then Return (error_response (exn_str e))
  else Propagate e.

(** The loop of [read], one [conn.recv(IO_BUFFER_SIZE)] per iteration, run
    on the scripted outcomes of the [recv] calls; [result] is the
    bytearray accumulated so far.  Returns how the loop ended and the
    outcomes not consumed. *)
Fixpoint read_loop (script : list recv_outcome) (result : bytes)
    : loop_exit * list recv_outcome :=
  match script with
  | [] => (recv_raised timed_out, [])
  | RecvRaise e :: rest => (recv_raised e, rest)
  | RecvData chunk :: rest =>
      match chunk with
      | [] => (Break result, rest)
      | _ :: _ =>
          if (len result + len chunk >? MAX_REQUEST_SIZE)%Z
          then (Return (error_response "Request too large"), rest)
          else
            let result := result ++ chunk in
            if (len chunk <? IO_BUFFER_SIZE)%Z then (Break result, rest)
            else read_loop rest result
      end
  end.

Section Codec.

(** [pickle.dumps] on a [Command] and [pickle.loads] on response bytes:
    the wire encoding is opaque to the client.  In this module and in
    [client], unpickling gives a Response or raises an [Exception]; what
    the code does when it gives an object of another type, or raises
    outside [Exception], is modelled in [interp] below. *)
Variable pickle_dumps : Command -> bytes.
Variable pickle_loads : bytes -> PyResult Response.

Definition serialize (c : Command) : bytes := pickle_dumps c.

Definition deserialize (data : bytes) : PyResult Response :=
  match pickle_loads data with
  | Ret r => Ret r
  | Raise e =>
      if any_Exception e
      then Ret (error_response ("Failed to deserialize response: " ++ exn_str e))
      else Raise e
  end.

Definition read (conn : option fd) : M World Response :=
  fun w =>
    match conn with
    | None => (Raise (none_has_no "recv"), w)
    | Some _ =>
        let (exit, rest) := read_loop (recvs w) [] in
        let w := set_recvs rest w in
        match exit with
        | Return r => (Ret r, w)
        | Propagate e => (Raise e, w)
        | Break [] => (Ret (error_response "Empty response or connection closed"), w)
        | Break result => (deserialize result, w)
        end
    end.

Definition write (conn : option fd) (c : Command) : M World bool :=
  try_except
    (let data := serialize c in
     match conn with
     | None => raise (none_has_no "sendall")
     | Some s => sendall s data
     end ;;; ret true)
    any_Exception
    (fun _ => ret false).

End Codec.

End dice_io.

(** ** [str.strip] and [str.split]

    Strings are sequences of code points below 256; [isspace] is
    [str.isspace] on that range. *)

Definition isspace (c : ascii) : bool :=
  let n := nat_of_ascii c in
  (((9 <=? n) && (n <=? 13)) || ((28 <=? n) && (n <=? 32))
   || (n =? 133) || (n =? 160))%nat.

Fixpoint lstrip (s : string) : string :=
  match s with
  | EmptyString => EmptyString
  | String c s' => if isspace c then lstrip s' else s
  end.

Fixpoint rstrip (s : string) : string :=
  match s with
  | EmptyString => EmptyString
  | String c s' =>
      match rstrip s' with
      | EmptyString => if isspace c then EmptyString else String c EmptyString
      | r => String c r
      end
  end.

Definition strip (s : string) : string := rstrip (lstrip s).

(** [split_from tok s]: the tokens of [s], the first one prefixed by the
    characters [tok] already read. *)
Fixpoint split_from (tok : string) (s : string) : list string :=
  match s with
  | EmptyString => if truthy tok then [tok] else []
  | String c s' =>
      if isspace c
      then (if truthy tok then tok :: split_from EmptyString s'
            else split_from EmptyString s')
      else split_from (tok ++ String c EmptyString) s'
  end.

(** [s.split()] with no separator: runs of whitespace delimit. *)
Definition split (s : string) : list string := split_from EmptyString s.

(** [str(n)] for an [int]. *)
Definition str_of_int (n : Z) : string := NilZero.string_of_int (Z.to_int n).

(** ** client.py *)

Module client.
Import wire socket.

(** The attributes of a [Client] instance.  [watch_ch] is the instance
    attribute of that name ([None] or the [threading.Event]);
    [watch_queue] is unset until the subscription is opened, and holds the
    identity of the list object with its items.  The lock, the condition
    variable and the thread handle have no role in a sequential run. *)
Record Client : Type := mkClient {
  host : string;
  port : Z;
  id : string;
  conn : option fd;
  watch_conn : option fd;
  watch_ch : option nat;
  watch_queue : option (nat * list Response)
}.

Definition set_id (v : string) (c : Client) : Client :=
  mkClient (host c) (port c) v (conn c) (watch_conn c) (watch_ch c) (watch_queue c).
Definition set_conn (v : option fd) (c : Client) : Client :=
  mkClient (host c) (port c) (id c) v (watch_conn c) (watch_ch c) (watch_queue c).
Definition set_watch_conn (v : option fd) (c : Client) : Client :=
  mkClient (host c) (port c) (id c) (conn c) v (watch_ch c) (watch_queue c).
Definition set_watch_ch (v : option nat) (c : Client) : Client :=
  mkClient (host c) (port c) (id c) (conn c) (watch_conn c) v (watch_queue c).
Definition set_watch_queue (v : option (nat * list Response)) (c : Client) : Client :=
  mkClient (host c) (port c) (id c) (conn c) (watch_conn c) (watch_ch c) v.

(** A client object and the world it runs in. *)
Record State : Type := mkState { self : Client; world : World }.

Definition io {A : Type} (m : M World A) : M State A :=
  fun st => let (r, w) := m (world st) in (r, mkState (self st) w).
Definition attr {A : Type} (f : Client -> A) : M State A :=
  gets (fun st => f (self st)).
Definition assign (f : Client -> Client) : M State unit :=
  modify (fun st => mkState (f (self st)) (world st)).

(** [ClientOption]: wraps a function applied to the client. *)
Record ClientOption : Type := mkClientOption { option_func : Client -> Client }.
Definition apply (o : ClientOption) (c : Client) : Client := option_func o c.
Definition WithID (client_id : string) : ClientOption :=
  mkClientOption (set_id client_id).

Definition handshake (ident tag : string) : Command :=
  mkCommand "HANDSHAKE" [ident; tag].

(** What the two [return] statements of the method [watch_ch] hand back:
    the bare attribute, or the tuple of event and queue. *)
Inductive handles : Type :=
  | Event (ev : nat)
  | EventAndQueue (ev : nat) (queue : nat).

(** How the loop of [_watch] was left: the [while] condition saw the
    event set, or the [break] after a failed reconnect. *)
Inductive watch_exit : Type := StopSet | GaveUp.

Section Codec.

Variable pickle_dumps : Command -> bytes.
Variable pickle_loads : bytes -> PyResult Response.

Definition _connect : M State unit :=
  try_except
    (s <- io socket ;;
     assign (set_conn (Some s)) ;;;
     h <- attr host ;; p <- attr port ;;
     io (connect s h p))
    is_socket_error
    (fun e =>
       h <- attr host ;; p <- attr port ;;
       raise (Exn ConnectionError
                ("Failed to connect to " ++ h ++ ":" ++ str_of_int p ++ ": "
                 ++ exn_str e))).

Definition _fire (c : Command) (cn : option fd) : M State Response :=
  ok <- io (dice_io.write pickle_dumps cn c) ;;
  if negb ok then ret (error_response "Failed to write command to socket")
  else io (dice_io.read pickle_loads cn).

Definition check_and_reconnect (error : string) : M State bool :=
  if str_in "EOF" error || str_in "Broken pipe" error then
    try_except
      (cn <- attr conn ;;
       match cn with
       | Some s => io (close s)
       | None => ret tt
       end ;;;
       _connect ;;;
       i <- attr id ;; cn <- attr conn ;;
       resp <- _fire (handshake i "command") cn ;;
       if truthy (err resp) then ret false else ret true)
      any_Exception
      (fun _ => ret false)
  else ret false.

(** [fire] calls itself after a successful reconnect.  [fire_rec depth]
    is the method with [depth] nested calls of [fire] left; the frames
    of the calls below [fire], where the interpreter's recursion limit
    is met first, are counted in [interp.fire]. *)
Fixpoint fire_rec (depth : nat) (c : Command) : M State Response :=
  match depth with
  | O => raise (Exn RecursionError "maximum recursion depth exceeded")
  | S depth =>
      cn <- attr conn ;;
      result <- _fire c cn ;;
      if truthy (err result) then
        again <- check_and_reconnect (err result) ;;
        if again then fire_rec depth c else ret result
      else ret result
  end.

(** Every nested call follows a reconnect that took one scripted
    [connect], so one more level than the script has connects is a depth
    the recursion cannot exhaust (see [fire_rec_depth]): this is [fire]
    on a stack with room for all its nested calls, which [interp.fire]
    agrees with when it has that room (see [fire_agrees]). *)
Definition fire (c : Command) : M State Response :=
  fun st => fire_rec (S (length (connects (world st)))) c st.

Definition fire_string (cmd_str : string) : M State Response :=
  let cmd_str := strip cmd_str in
  let tokens := split cmd_str in
  match nth_error tokens 0 with
  | None => raise (Exn IndexError "list index out of range")
  | Some c =>
      let a := if (1 <? length tokens)%nat then skipn 1 tokens else [] in
      fire (mkCommand c a)
  end.

(** [Client(host, port, *options)]; [uuid4] is what [str(uuid.uuid4())]
    returned. *)
Definition __init__ (h : string) (p : Z) (uuid4 : string)
    (options : list ClientOption) : M State unit :=
  assign (fun _ =>
    fold_left (fun c o => apply o c) options
              (mkClient h p uuid4 None None None None)) ;;;
  _connect ;;;
  i <- attr id ;;
  resp <- fire (handshake i "command") ;;
  if truthy (err resp)
  then raise (Exn ConnectionError
                ("Could not complete the handshake: " ++ err resp))
  else ret tt.

(** The method [watch_ch], as [Client.watch_ch(c)] runs it. *)
Definition Client_watch_ch : M State handles :=
  wc <- attr watch_ch ;;
  match wc with
  | Some ev => ret (Event ev)
  | None =>
      ev <- io new_object ;;
      assign (set_watch_ch (Some ev)) ;;;
      q <- io new_object ;;
      assign (set_watch_queue (Some (q, []))) ;;;
      try_except
        (s <- io socket ;;
         assign (set_watch_conn (Some s)) ;;;
         h <- attr host ;; p <- attr port ;;
         io (connect s h p) ;;;
         i <- attr id ;; wcn <- attr watch_conn ;;
         resp <- _fire (handshake i "watch") wcn ;;
         if truthy (err resp)
         then raise (Exn ConnectionError
                       ("Could not complete the watch handshake: " ++ err resp))
         else
           io (modify (log EvThreadStart)) ;;;
           wc <- attr watch_ch ;; wq <- attr watch_queue ;;
           match wc, wq with
           | Some ev, Some (q, _) => ret (EventAndQueue ev q)
           | _, _ => raise (none_has_no "watch_ch")
           end)
        any_Exception
        (fun e =>
           assign (set_watch_ch None) ;;;
           raise (Exn ConnectionError
                    ("Failed to setup watch connection: " ++ exn_str e)))
  end.

(** The expression [c.watch_ch()] on an instance: attribute lookup finds
    the instance attribute assigned in [__init__] before the method of
    the class, and calls that. *)
Definition call_watch_ch_attribute : M State handles :=
  wc <- attr watch_ch ;;
  match wc with
  | None => raise (Exn TypeError "'NoneType' object is not callable")
  | Some _ => raise (Exn TypeError "'Event' object is not callable")
  end.

(** [self.watch_queue.append(resp)]. *)
Definition queue_append (resp : Response) : M State unit :=
  wq <- attr watch_queue ;;
  match wq with
  | None => raise (Exn AttributeError
                     "'Client' object has no attribute 'watch_queue'")
  | Some (q, items) => assign (set_watch_queue (Some (q, items ++ [resp])))
  end.

(** One run of the body of the [while] loop of [_watch]; [true] when the
    loop goes round again, [false] at the [break]. *)
Definition watch_body : M State bool :=
  try_except
    (wcn <- attr watch_conn ;;
     resp <- io (dice_io.read pickle_loads wcn) ;;
     queue_append resp ;;;
     ret true)
    any_Exception
    (fun e =>
       ok <- check_and_reconnect (exn_str e) ;;
       if negb ok then
         queue_append (error_response ("Watch error: " ++ exn_str e)) ;;;
         ret false
       else ret true).

(** [_watch], the target of the background thread.  The event is set by
    another thread and never cleared: [unset_polls] is the number of
    times [self.watch_ch.is_set()] still answers [False]. *)
Fixpoint _watch (unset_polls : nat) : M State watch_exit :=
  wc <- attr watch_ch ;;
  match wc with
  | None => raise (none_has_no "is_set")
  | Some _ =>
      match unset_polls with
      | O => ret StopSet
      | S k =>
          again <- watch_body ;;
          if again then _watch k else ret GaveUp
      end
  end.

End Codec.

End client.

(** ** client.py: [close] and [get_or_create_client] *)

Module lifecycle.
Import wire client.

(** Which events have been set is kept beside the state: [Event.set()]
    raises the flag and leaves it raised. *)
Record Process : Type := mkProcess { state : State; events_set : list nat }.

Definition within {A : Type} (m : M State A) : M Process A :=
  fun p => let (r, st) := m (state p) in (r, mkProcess st (events_set p)).

Definition Event_is_set (ev : nat) (p : Process) : bool :=
  existsb (Nat.eqb ev) (events_set p).

Definition Event_set (ev : nat) : M Process unit :=
  modify (fun p =>
    if Event_is_set ev p then p
    else mkProcess (state p) (ev :: events_set p)).

Definition close : M Process unit :=
  wc <- within (attr watch_ch) ;;
  match wc with
  | Some ev => Event_set ev
  | None => ret tt
  end ;;;
  cn <- within (attr conn) ;;
  match cn with
  | Some s => within (io (socket.close s))
  | None => ret tt
  end ;;;
  wcn <- within (attr watch_conn) ;;
  match wcn with
  | Some s => within (io (socket.close s))
  | None => ret tt
  end.

Section Codec.

Variable pickle_dumps : Command -> bytes.
Variable pickle_loads : bytes -> PyResult Response.

(** The expression [Client(h, p, *options)]: [__init__] run on a new
    object, which is the value of the expression when it returns. *)
Definition Client_new (h : string) (p : Z) (uuid4 : string)
    (options : list ClientOption) : M socket.World Client :=
  fun w =>
    let (r, st) :=
      __init__ pickle_dumps pickle_loads h p uuid4 options
        (mkState (mkClient EmptyString 0 EmptyString None None None None) w) in
    match r with
    | Ret _ => (Ret (self st), world st)
    | Raise e => (Raise e, world st)
    end.

(** [get_or_create_client(client, host, port)]; [uuid4] is the token
    the constructor it runs draws. *)
Definition get_or_create_client (c : option Client) (h : string) (p : Z)
    (uuid4 : string) : M socket.World Client :=
  match c with
  | None => Client_new h p uuid4 []
  | Some c =>
      try_except
        (new_client <- Client_new (host c) (port c) uuid4 [] ;;
         match conn c with
         | Some s => socket.close s
         | None => ret tt
         end ;;;
         ret new_client)
        any_Exception
        (fun e =>
           raise (Exn ConnectionError
                    ("Failed to create new client: " ++ exn_str e)))
  end.

End Codec.

End lifecycle.

(** ** The control path as the interpreter runs it

    The embedding above takes two things for granted: that unpickling
    gives a Response or raises an [Exception], and that the stack is
    deep enough for every nested call.  This module drops both.  What
    [pickle.loads] does is a parameter with three outcomes: an object,
    which need not be a Response; an [Exception]; or an exception
    outside [Exception] ([SystemExit], [KeyboardInterrupt]), which no
    [except Exception] clause catches.  And every function that calls
    another function of io.py or client.py takes the number of frames
    left for such calls, [room]: a call made with no room left raises
    [RecursionError] at the place of the call.  (Calls into the standard
    library and the construction of a Command or a Response are taken to
    fit.)  [Refinement] below shows that on a codec of the first kind
    and with room enough, this module and the embedding above agree. *)

Module interp.
Import wire socket client.

Inductive base_exception : Type := SystemExit | KeyboardInterrupt.

(** What a call ends in: a value, an [Exception], or an exception
    outside [Exception]. *)
Inductive Outcome (A : Type) : Type :=
  | Returned (a : A)
  | Raised (e : exn)
  | Exited (b : base_exception).
Arguments Returned {A} a.
Arguments Raised {A} e.
Arguments Exited {A} b.

(** What unpickling hands back: a Response, or an object of some other
    type. *)
Inductive pyobject : Type :=
  | IsResponse (r : Response)
  | Other (type_name : string).

Definition N (S A : Type) : Type := S -> Outcome A * S.

Definition retN {S A : Type} (a : A) : N S A := fun s => (Returned a, s).
Definition raiseN {S A : Type} (e : exn) : N S A := fun s => (Raised e, s).
Definition bindN {S A B : Type} (m : N S A) (k : A -> N S B) : N S B :=
  fun s => match m s with
           | (Returned a, s') => k a s'
           | (Raised e, s') => (Raised e, s')
           | (Exited b, s') => (Exited b, s')
           end.

(** A statement of the embedding above, run here. *)
Definition lift {S A : Type} (m : M S A) : N S A :=
  fun s => match m s with
           | (Ret a, s') => (Returned a, s')
           | (Raise e, s') => (Raised e, s')
           end.

(** [try: body  except <catches> as e: handler e]; an exception outside
    [Exception] passes every handler of this code. *)
Definition try_exceptN {S A : Type} (body : N S A) (catches : exn -> bool)
    (handler : exn -> N S A) : N S A :=
  fun s => match body s with
           | (Returned a, s') => (Returned a, s')
           | (Raised e, s') => if catches e then handler e s' else (Raised e, s')
           | (Exited b, s') => (Exited b, s')
           end.

Definition recursion_error : exn :=
  Exn RecursionError "maximum recursion depth exceeded".

(** A call of a function of this code with [room] frames left: the
    function runs with one frame less, or the call raises. *)
Definition call {S A : Type} (room : nat) (f : nat -> N S A) : N S A :=
  match room with
  | O => raiseN recursion_error
  | S room => f room
  end.

Declare Scope interp_scope.
Notation "x <- m ;; k" := (bindN m (fun x => k))
  (at level 61, m at next level, right associativity) : interp_scope.
Notation "m ;;; k" := (bindN m (fun _ => k))
  (at level 61, right associativity) : interp_scope.
Local Open Scope interp_scope.

(** What [o.err] raises on an object of a type without that
    attribute. *)
Definition has_no_err (type_name : string) : exn :=
  Exn AttributeError ("'" ++ type_name ++ "' object has no attribute 'err'").

Section Codec.

Variable pickle_dumps : Command -> bytes.
Variable pickle_loads : bytes -> Outcome pyobject.

Definition serialize (c : Command) : bytes := pickle_dumps c.

Definition deserialize (data : bytes) : Outcome pyobject :=
  match pickle_loads data with
  | Returned o => Returned o
  | Raised e =>
      if any_Exception e
      then Returned (IsResponse
                       (error_response
                          ("Failed to deserialize response: " ++ exn_str e)))
      else Raised e
  | Exited b => Exited b
  end.

Definition read (room : nat) (cn : option fd) : N World pyobject :=
  fun w =>
    match cn with
    | None => (Raised (none_has_no "recv"), w)
    | Some _ =>
        let (exit, rest) := dice_io.read_loop (recvs w) [] in
        let w := set_recvs rest w in
        match exit with
        | dice_io.Return r => (Returned (IsResponse r), w)
        | dice_io.Propagate e => (Raised e, w)
        | dice_io.Break [] =>
            (Returned (IsResponse
                         (error_response "Empty response or connection closed")),
             w)
        | dice_io.Break result =>
            call room (fun _ => fun w => (deserialize result, w)) w
        end
    end.

Definition write (room : nat) (cn : option fd) (c : Command) : N World bool :=
  try_exceptN
    (data <- call room (fun _ => retN (serialize c)) ;;
     match cn with
     | None => raiseN (none_has_no "sendall")
     | Some s => lift (sendall s data)
     end ;;; retN true)
    any_Exception
    (fun _ => retN false).

Definition in_world {A : Type} (m : N World A) : N State A :=
  fun st => let (r, w) := m (world st) in (r, mkState (self st) w).

Definition _fire (room : nat) (c : Command) (cn : option fd)
    : N State pyobject :=
  ok <- call room (fun room => in_world (write room cn c)) ;;
  if negb ok
  then retN (IsResponse (error_response "Failed to write command to socket"))
  else call room (fun room => in_world (read room cn)).

Definition check_and_reconnect (room : nat) (error : string) : N State bool :=
  if str_in "EOF" error || str_in "Broken pipe" error then
    try_exceptN
      (cn <- lift (attr conn) ;;
       match cn with
       | Some s => lift (io (close s))
       | None => retN tt
       end ;;;
       call room (fun _ => lift _connect) ;;;
       i <- lift (attr id) ;; cn <- lift (attr conn) ;;
       resp <- call room (fun room => _fire room (handshake i "command") cn) ;;
       match resp with
       | Other t => raiseN (has_no_err t)
       | IsResponse resp => if truthy (err resp) then retN false else retN true
       end)
      any_Exception
      (fun _ => retN false)
  else retN false.

(** [fire] with [room] frames left for the calls it makes
    ([self._fire], [self.check_and_reconnect], [self.fire]): each runs
    with one frame less, and with none left the first of them raises. *)
Fixpoint fire (room : nat) (c : Command) : N State Response :=
  match room with
  | O => raiseN recursion_error
  | S room =>
      cn <- lift (attr conn) ;;
      result <- _fire room c cn ;;
      match result with
      | Other t => raiseN (has_no_err t)
      | IsResponse result =>
          if truthy (err result) then
            again <- check_and_reconnect room (err result) ;;
            if again then fire room c else retN result
          else retN result
      end
  end.

Definition fire_string (room : nat) (cmd_str : string) : N State Response :=
  let cmd_str := strip cmd_str in
  let tokens := split cmd_str in
  match nth_error tokens 0 with
  | None => raiseN (Exn IndexError "list index out of range")
  | Some c =>
      let a := if (1 <? length tokens)%nat then skipn 1 tokens else [] in
      call room (fun room => fire room (mkCommand c a))
  end.

(** [option.apply(self)], which calls [self.option_func(client)]. *)
Definition apply (room : nat) (o : ClientOption) : N State unit :=
  call room (fun _ => lift (assign (option_func o))).

Fixpoint apply_all (room : nat) (options : list ClientOption) : N State unit :=
  match options with
  | [] => retN tt
  | o :: options => call room (fun room => apply room o) ;;; apply_all room options
  end.

Definition __init__ (room : nat) (h : string) (p : Z) (uuid4 : string)
    (options : list ClientOption) : N State unit :=
  lift (assign (fun _ => mkClient h p uuid4 None None None None)) ;;;
  apply_all room options ;;;
  call room (fun _ => lift _connect) ;;;
  i <- lift (attr id) ;;
  resp <- call room (fun room => fire room (handshake i "command")) ;;
  if truthy (err resp)
  then raiseN (Exn ConnectionError
                 ("Could not complete the handshake: " ++ err resp))
  else retN tt.

End Codec.

End interp.


(** ** Vocabulary of the statements *)

(** A [recv] script on which only [socket.error] is ever raised: the
    failures a stream socket reports. *)
Definition transport_only (script : list socket.recv_outcome) : Prop :=
  Forall (fun o => match o with
                   | socket.RecvData _ => True
                   | socket.RecvRaise e => is_socket_error e = true
                   end) script.

(** The test [check_and_reconnect] makes on an error message. *)
Definition dead_connection (error : string) : bool :=
  str_in "EOF" error || str_in "Broken pipe" error.

(** A [recv] that returned [IO_BUFFER_SIZE] bytes or more, after which
    the loop of [read] asks for another chunk. *)
Definition full_chunk (chunk : bytes) : Prop :=
  (dice_io.IO_BUFFER_SIZE <= len chunk)%Z.

(** ** A concrete codec, to run the client on examples

    Commands go out as their words joined by spaces.  A reply [+text] is
    a string value, [-text] is an error reply, and anything else does not
    unpickle. *)

Module toy.
Import wire.

Definition dumps (c : Command) : bytes :=
  list_byte_of_string (String.concat " " (cmd c :: args c)).

Definition loads (data : bytes) : PyResult Response :=
  match data with
  | "+"%byte :: rest =>
      Ret (mkResponse "" (Some STR) (PyStr (string_of_list_byte rest))
                      None None None)
  | "-"%byte :: rest => Ret (error_response (string_of_list_byte rest))
  | _ => Raise (Exn UnpicklingError "invalid load key")
  end.

(** The bytes of a reply. *)
Definition reply (s : string) : socket.recv_outcome :=
  socket.RecvData (list_byte_of_string s).

End toy.

(** ** Inputs used as examples *)

(** One full read buffer of zero bytes, and 2048 of them: exactly
    32 MiB. *)
Definition full_buffer : bytes :=
  repeat "000"%byte (Z.to_nat dice_io.IO_BUFFER_SIZE).
Definition thirty_two_MiB : list bytes := repeat full_buffer 2048.

(** A string is blank when all its characters are whitespace. *)
Definition blank (s : string) : Prop :=
  Forall (fun c => isspace c = true) (list_ascii_of_string s).

(** A token: not empty, no whitespace in it. *)
Definition token (t : string) : Prop :=
  t <> EmptyString /\
  Forall (fun c => isspace c = false) (list_ascii_of_string t).

(** [later] is what is left of the script [earlier] after some of its
    outcomes were consumed. *)
Definition remains {A : Type} (later earlier : list A) : Prop :=
  exists consumed, earlier = consumed ++ later.



Definition is_connect (ev : socket.io_event) : bool :=
  match ev with
  | socket.EvConnect _ _ _ => true
  | _ => false
  end.



(** A session on socket 0 whose server answers [PING] twice with a read
    error naming EOF, accepting the reconnect in between, before it
    answers [PONG]. *)
Definition eof_error : socket.recv_outcome :=
  socket.RecvRaise (Exn OSError "EOF occurred in violation of protocol").

Definition connected_client : client.Client :=
  client.mkClient "localhost" 7379 "6f1e" (Some 0) None None None.

Definition flaky_session : client.State :=
  client.mkState connected_client
    (socket.mkWorld [None; None] [None; None; None; None; None]
       [eof_error; toy.reply "+OK"; eof_error; toy.reply "+OK"; toy.reply "+PONG"]
       1 0 []).

Definition PING : wire.Command := wire.mkCommand "PING" [].
Definition PONG : wire.Response :=
  wire.mkResponse "" (Some wire.STR) (wire.PyStr "PONG") None None None.

(** A relation every run of [m] establishes between the state it starts
    in and the state it ends in, whether it returns or raises. *)
Definition respects {A : Type} (R : client.State -> client.State -> Prop)
    (m : M client.State A) : Prop :=
  forall s r s', m s = (r, s') -> R s s'.

(** Between two states: the identity token and the watch connection are
    the same, and whatever was sent in between is the handshake with
    that identity and the tag [command]. *)
Definition command_handshakes_only
    (pickle_dumps : wire.Command -> bytes) (st st' : client.State) : Prop :=
  client.id (client.self st') = client.id (client.self st) /\
  client.watch_conn (client.self st') = client.watch_conn (client.self st) /\
  exists new,
    socket.trace (client.world st') = socket.trace (client.world st) ++ new /\
    forall s d,
      In (socket.EvSendall s d) new ->
      d = pickle_dumps (client.handshake (client.id (client.self st)) "command").


(** A client with its subscription open: control socket 0, watch socket
    1, event object 0, queue object 1. *)
Definition watching_client : client.Client :=
  client.mkClient "localhost" 7379 "6f1e" (Some 0) (Some 1) (Some 0)
                  (Some (1, [])).

(** The server has gone: the watch socket is reset, then reads as closed,
    and nothing would accept a new connection. *)
Definition dead_watch_session : client.State :=
  client.mkState watching_client
    (socket.mkWorld [] []
       [socket.RecvRaise (Exn OSError "[Errno 104] Connection reset by peer");
        socket.RecvData []; socket.RecvData []]
       2 2 []).

(** A connected client about to open its subscription, on a server that
    accepts the watch connection and its handshake; and the same after
    the first call of the method [watch_ch]. *)
Definition watch_ready_session : client.State :=
  client.mkState connected_client
    (socket.mkWorld [None] [None] [toy.reply "+OK"] 1 0 []).

Definition opened_session : client.State :=
  snd (client.Client_watch_ch toy.dumps toy.loads watch_ready_session).


(** ** Vocabulary of the further properties *)

(** One whole message as a single [recv] gives it: not empty, shorter
    than the read buffer. *)
Definition short_message (d : bytes) : Prop :=
  d <> [] /\ (len d < dice_io.IO_BUFFER_SIZE)%Z.

(** The Response [deserialize] makes of [data] (it always makes one). *)
Definition decoded (pickle_loads : bytes -> PyResult wire.Response)
    (data : bytes) : wire.Response :=
  match dice_io.deserialize pickle_loads data with
  | Ret r => r
  | Raise e => wire.error_response (exn_str e)
  end.

(** Between two states of a call of [fire] on [c]: no attribute but
    [conn] has changed, a control connection that was there is still
    there, and what was sent is the command or the [command]
    handshake. *)
Definition control_path_only
    (pickle_dumps : wire.Command -> bytes) (c : wire.Command)
    (st st' : client.State) : Prop :=
  client.self st' = client.set_conn (client.conn (client.self st')) (client.self st) /\
  (client.conn (client.self st) <> None -> client.conn (client.self st') <> None) /\
  exists new,
    socket.trace (client.world st') = socket.trace (client.world st) ++ new /\
    forall s d,
      In (socket.EvSendall s d) new ->
      d = pickle_dumps c \/
      d = pickle_dumps (client.handshake (client.id (client.self st)) "command").

(** A healthy session on socket 0 whose server answers [+PONG]. *)
Definition healthy_session : client.State :=
  client.mkState connected_client
    (socket.mkWorld [None] [None; None] [toy.reply "+PONG"; toy.reply "+OK"] 1 0 []).

(** The send fails with a broken pipe although a server is there to
    reconnect to. *)
Definition broken_pipe_session : client.State :=
  client.mkState connected_client
    (socket.mkWorld [None] [Some socket.broken_pipe; None] [toy.reply "+OK"] 1 0 []).

(** The peer has closed the control connection: the read returns no
    bytes. *)
Definition closed_by_peer_session : client.State :=
  client.mkState connected_client
    (socket.mkWorld [None] [None; None] [socket.RecvData []; toy.reply "+OK"] 1 0 []).

(** The state a constructor starts from (no attribute set yet) in a
    given world; a server that accepts the connection and the
    handshake; and no server at all. *)
Definition unbuilt (w : socket.World) : client.State :=
  client.mkState (client.mkClient "" 0 "" None None None None) w.

Definition accepting_server : client.State :=
  unbuilt (socket.mkWorld [None] [None] [toy.reply "+OK"] 0 0 []).

Definition unreachable_server : client.State :=
  unbuilt (socket.mkWorld [Some socket.refused] [] [] 0 0 []).

(** An open subscription with three events waiting, the second of them
    not decodable, and a fourth arriving later. *)
Definition three_events : list bytes :=
  [list_byte_of_string "+one"; list_byte_of_string "?"; list_byte_of_string "+three"].

Definition watch_stream_session : client.State :=
  client.mkState watching_client
    (socket.mkWorld [] []
       (map socket.RecvData three_events ++ [toy.reply "+later"]) 2 2 []).

(** A connected client whose server refuses the watch connection. *)
Definition watch_refused_session : client.State :=
  client.mkState connected_client
    (socket.mkWorld [Some socket.refused] [] [] 1 0 []).

(** The state after the refused opening, and an opened session after
    [close]. *)
Definition failed_open_session : client.State :=
  snd (client.Client_watch_ch toy.dumps toy.loads watch_refused_session).

Definition closed_process : lifecycle.Process :=
  snd (lifecycle.close (lifecycle.mkProcess opened_session [])).

(** ** Vocabulary for the interpreter-level statements *)

(** A codec of the embedding above, seen as one of [interp]: it gives
    Responses or raises [Exception]s, nothing else. *)
Definition typed (pickle_loads : bytes -> PyResult wire.Response)
    (data : bytes) : interp.Outcome interp.pyobject :=
  match pickle_loads data with
  | Ret r => interp.Returned (interp.IsResponse r)
  | Raise e => interp.Raised e
  end.

Definition as_outcome {A : Type} (r : PyResult A) : interp.Outcome A :=
  match r with
  | Ret a => interp.Returned a
  | Raise e => interp.Raised e
  end.

Definition as_object (r : PyResult wire.Response)
    : interp.Outcome interp.pyobject :=
  match r with
  | Ret a => interp.Returned (interp.IsResponse a)
  | Raise e => interp.Raised e
  end.





(** Unpickling as [pickle.loads] does it on three payloads of protocol
    0, and as [toy.loads] on the rest: [csys exit (tR.] calls
    [sys.exit()]; [I5 .] is the integer 5. *)
Definition exit_pickle : bytes :=
  list_byte_of_string "csys" ++ ["010"%byte] ++ list_byte_of_string "exit"
  ++ ["010"%byte] ++ list_byte_of_string "(tR.".

Definition int_pickle : bytes :=
  list_byte_of_string "I5" ++ ["010"%byte] ++ list_byte_of_string ".".

Definition bytes_eqb (a b : bytes) : bool :=
  if list_eq_dec Byte.byte_eq_dec a b then true else false.

Definition raw_loads (data : bytes) : interp.Outcome interp.pyobject :=
  if bytes_eqb data exit_pickle then interp.Exited interp.SystemExit
  else if bytes_eqb data int_pickle
       then interp.Returned (interp.Other "int")
       else typed toy.loads data.











(** * Properties *)

(** Split a conjunction into its parts, and nothing else. *)
Ltac splits := repeat match goal with |- _ /\ _ => split end.

(** ** wire.py: the typed accessors *)

Section WireFacts.
Import wire.

Lemma ValueType_eqb_eq (a b : ValueType) : ValueType_eqb a b = true <-> a = b.
Proof. destruct a, b; simpl; split; congruence. Qed.

Lemma tag_is_true (r : Response) (t : ValueType) :
  tag_is r t = true <-> value_type r = Some t.
Proof.
  unfold tag_is. destruct (value_type r) as [t'|].
  - rewrite ValueType_eqb_eq. split; congruence.
  - split; discriminate.
Qed.

Lemma tag_is_false (r : Response) (t : ValueType) :
  tag_is r t = false <-> value_type r <> Some t.
Proof.
  rewrite <- tag_is_true. destruct (tag_is r t); split; congruence.
Qed.

Ltac accessor :=
  let Htag := fresh "Htag" in
  split; intro Htag;
  [ apply tag_is_true in Htag | apply tag_is_false in Htag ];
  rewrite Htag; reflexivity.

(** C8: every accessor is a total function of the Response; it hands back
    the stored value when the tag is the accessor's kind and the kind's
    zero value ([0], [""], [0.0], [b""]) for any other tag, the unset tag
    included, and [v_nil] holds exactly for the tag [NIL]. *)
Theorem accessors_default_on_mismatch (r : Response) :
  ((value_type r = Some INT -> v_int r = value r) /\
   (value_type r <> Some INT -> v_int r = PyInt 0)) /\
  ((value_type r = Some STR -> v_str r = value r) /\
   (value_type r <> Some STR -> v_str r = PyStr "")) /\
  ((value_type r = Some FLOAT -> v_float r = value r) /\
   (value_type r <> Some FLOAT -> v_float r = PyFloat 0%float)) /\
  ((value_type r = Some BYTES -> v_bytes r = value r) /\
   (value_type r <> Some BYTES -> v_bytes r = PyBytes [])) /\
  (v_nil r = true <-> value_type r = Some NIL).
Proof.
  unfold v_int, v_str, v_float, v_bytes, v_nil.
  split; [accessor|]. split; [accessor|]. split; [accessor|].
  split; [accessor|]. apply tag_is_true.
Qed.

End WireFacts.

(** ** io.py: the size limit *)

Section IoFacts.
Import wire socket dice_io.

Variable pickle_loads : bytes -> PyResult Response.


Lemma len_app (A : Type) (l1 l2 : list A) : len (l1 ++ l2) = (len l1 + len l2)%Z.
Proof. unfold len. rewrite length_app. lia. Qed.

Lemma len_nonneg (A : Type) (l : list A) : (0 <= len l)%Z.
Proof. unfold len. lia. Qed.

Lemma full_chunk_nonempty (chunk : bytes) : full_chunk chunk -> chunk <> [].
Proof.
  unfold full_chunk, IO_BUFFER_SIZE. intros H ->. unfold len in H. simpl in H. lia.
Qed.

(** The loop gives up as soon as the bytes held plus the chunk at hand
    pass the limit, wherever in a run of full chunks that happens. *)
Lemma read_loop_too_large (pre : list bytes) :
  forall (result chunk : bytes) (rest : list recv_outcome),
    Forall full_chunk pre ->
    chunk <> [] ->
    (len result + len (concat pre) + len chunk > MAX_REQUEST_SIZE)%Z ->
    fst (read_loop (map RecvData pre ++ RecvData chunk :: rest) result)
    = Return (error_response "Request too large").
Proof.
  induction pre as [|c pre IH]; intros result chunk rest Hfull Hne Hsum.
  - cbn [map app read_loop concat] in *.
    destruct chunk as [|b chunk]; [congruence|].
    change (len (@nil Byte.byte)) with 0%Z in Hsum.
    destruct (len result + len (b :: chunk) >? MAX_REQUEST_SIZE)%Z eqn:E;
      [reflexivity | lia].
  - inversion Hfull as [|? ? Hc Hpre]; subst.
    pose proof (full_chunk_nonempty Hc) as Hcne.
    cbn [map app read_loop].
    destruct c as [|b c]; [congruence|].
    destruct (len result + len (b :: c) >? MAX_REQUEST_SIZE)%Z eqn:E;
      [reflexivity|].
    unfold full_chunk in Hc.
    destruct (len (b :: c) <? IO_BUFFER_SIZE)%Z eqn:E2; [lia|].
    apply IH; auto.
    cbn [concat] in Hsum. rewrite len_app in *. lia.
Qed.

(** Up to the limit the loop keeps the bytes: a run of full chunks ended
    by a short one is handed on whole. *)
Lemma read_loop_within_limit (pre : list bytes) :
  forall (result chunk : bytes) (rest : list recv_outcome),
    Forall full_chunk pre ->
    chunk <> [] ->
    (len chunk < IO_BUFFER_SIZE)%Z ->
    (len result + len (concat pre) + len chunk <= MAX_REQUEST_SIZE)%Z ->
    read_loop (map RecvData pre ++ RecvData chunk :: rest) result
    = (Break (result ++ concat pre ++ chunk), rest).
Proof.
  induction pre as [|c pre IH]; intros result chunk rest Hfull Hne Hshort Hsum.
  - cbn [map app read_loop concat] in *.
    destruct chunk as [|b chunk]; [congruence|].
    change (len (@nil Byte.byte)) with 0%Z in Hsum.
    destruct (len result + len (b :: chunk) >? MAX_REQUEST_SIZE)%Z eqn:E; [lia|].
    destruct (len (b :: chunk) <? IO_BUFFER_SIZE)%Z eqn:E2; [reflexivity|lia].
  - inversion Hfull as [|? ? Hc Hpre]; subst.
    pose proof (full_chunk_nonempty Hc) as Hcne.
    cbn [map app read_loop].
    destruct c as [|b c]; [congruence|].
    cbn [concat] in Hsum. rewrite len_app in Hsum.
    pose proof (len_nonneg (concat pre)). pose proof (len_nonneg chunk).
    destruct (len result + len (b :: c) >? MAX_REQUEST_SIZE)%Z eqn:E; [lia|].
    unfold full_chunk in Hc.
    destruct (len (b :: c) <? IO_BUFFER_SIZE)%Z eqn:E2; [lia|].
    rewrite IH; auto.
    + cbn [concat]. rewrite <- !app_assoc. reflexivity.
    + rewrite len_app. lia.
Qed.

(** C7: [read] gives up with the error Response [Request too large], and
    returns no data, whenever a non-empty chunk arrives that would take
    the bytes accumulated over the preceding full chunks past
    [MAX_REQUEST_SIZE] = 32 MiB; and a first [recv] of zero bytes gives
    the error Response [Empty response or connection closed]. *)
Theorem read_enforces_max_size (s : fd) (w : World) :
  MAX_REQUEST_SIZE = (32 * 1024 * 1024)%Z /\
  (forall (pre : list bytes) (chunk : bytes) (rest : list recv_outcome),
     recvs w = map RecvData pre ++ RecvData chunk :: rest ->
     Forall full_chunk pre ->
     chunk <> [] ->
     (len (concat pre) + len chunk > MAX_REQUEST_SIZE)%Z ->
     fst (read pickle_loads (Some s) w)
     = Ret (error_response "Request too large")) /\
  (forall rest : list recv_outcome,
     recvs w = RecvData [] :: rest ->
     fst (read pickle_loads (Some s) w)
     = Ret (error_response "Empty response or connection closed")).
Proof.
  split; [reflexivity|]. split.
  - intros pre chunk rest Hw Hfull Hne Hsum. unfold read. rewrite Hw.
    pose proof (@read_loop_too_large pre [] chunk rest Hfull Hne) as H.
    destruct (read_loop (map RecvData pre ++ RecvData chunk :: rest) [])
      as [exit rest'].
    cbn [fst] in H. rewrite H; [reflexivity|].
    change (len (@nil Byte.byte)) with 0%Z. lia.
  - intros rest Hw. unfold read. rewrite Hw. reflexivity.
Qed.

End IoFacts.

Lemma len_concat_repeat (c : bytes) (n : nat) :
  len (concat (repeat c n)) = (Z.of_nat n * len c)%Z.
Proof.
  induction n as [|n IH].
  - reflexivity.
  - cbn [repeat concat]. rewrite len_app, IH. lia.
Qed.

Lemma len_full_buffer : len full_buffer = dice_io.IO_BUFFER_SIZE.
Proof.
  unfold full_buffer, len. rewrite repeat_length.
  unfold dice_io.IO_BUFFER_SIZE. lia.
Qed.

(** 32 MiB in full buffers and then one more byte: too large. *)
Lemma read_enforces_max_size_witness :
  fst (dice_io.read toy.loads (Some 0)
         (socket.mkWorld [] []
            (map socket.RecvData thirty_two_MiB ++ [socket.RecvData ["001"%byte]])
            1 0 []))
  = Ret (wire.error_response "Request too large").
Proof.
  apply (proj1 (proj2 (read_enforces_max_size toy.loads 0 _))
           thirty_two_MiB ["001"%byte] []).
  - reflexivity.
  - apply Forall_forall. intros c Hc. apply repeat_spec in Hc. subst c.
    unfold full_chunk. rewrite len_full_buffer. lia.
  - discriminate.
  - unfold thirty_two_MiB. rewrite len_concat_repeat, len_full_buffer.
    unfold dice_io.IO_BUFFER_SIZE, dice_io.MAX_REQUEST_SIZE, len.
    cbn [length]. lia.
Defined.

(** One byte under 32 MiB is within the limit: 2047 full buffers and a last
    chunk one byte short of full come back decoded. *)
Example read_at_the_limit (rest : list socket.recv_outcome) (last : bytes) :
  len last = (dice_io.IO_BUFFER_SIZE - 1)%Z ->
  dice_io.read_loop
    (map socket.RecvData (repeat full_buffer 2047) ++ socket.RecvData last :: rest) []
  = (dice_io.Break (concat (repeat full_buffer 2047) ++ last), rest).
Proof.
  intros Hlast.
  apply (@read_loop_within_limit (repeat full_buffer 2047) [] last rest).
  - apply Forall_forall. intros c Hc. apply repeat_spec in Hc. subst c.
    unfold full_chunk. rewrite len_full_buffer. lia.
  - intros ->. unfold dice_io.IO_BUFFER_SIZE, len in Hlast. simpl in Hlast. lia.
  - lia.
  - rewrite len_concat_repeat, len_full_buffer, Hlast.
    unfold dice_io.IO_BUFFER_SIZE, dice_io.MAX_REQUEST_SIZE, len.
    cbn [length]. lia.
Qed.

(** ** [strip] and [split] *)

Section TextFacts.

Lemma split_from_cons (tok : string) (c : ascii) (s : string) :
  split_from tok (String c s)
  = if isspace c
    then (if truthy tok then tok :: split_from EmptyString s
          else split_from EmptyString s)
    else split_from (tok ++ String c EmptyString) s.
Proof. reflexivity. Qed.

Lemma split_from_lstrip (s : string) :
  split_from EmptyString (lstrip s) = split_from EmptyString s.
Proof.
  induction s as [|c s IH]; [reflexivity|].
  cbn [lstrip split_from]. destruct (isspace c) eqn:E.
  - exact IH.
  - cbn [split_from]. rewrite E. reflexivity.
Qed.

Lemma split_from_rstrip (s : string) :
  forall tok, split_from tok (rstrip s) = split_from tok s.
Proof.
  induction s as [|c s IH]; intros tok; [reflexivity|].
  cbn [rstrip]. destruct (rstrip s) as [|c' r] eqn:Er.
  - destruct (isspace c) eqn:E; cbn [split_from]; rewrite E.
    + rewrite <- (IH EmptyString). reflexivity.
    + rewrite <- IH. reflexivity.
  - rewrite (split_from_cons tok c (String c' r)), (split_from_cons tok c s).
    rewrite !IH. reflexivity.
Qed.

(** Stripping first does not change the tokens. *)
Lemma split_strip (s : string) : split (strip s) = split s.
Proof.
  unfold split, strip. rewrite split_from_rstrip. apply split_from_lstrip.
Qed.

Lemma split_blank (s : string) : blank s -> split s = [].
Proof.
  unfold blank, split. induction s as [|c s IH]; intros H; [reflexivity|].
  cbn [list_ascii_of_string] in H. inversion H as [|? ? Hc Hs]; subst.
  cbn [split_from]. rewrite Hc. cbn [truthy]. auto.
Qed.

Lemma append_nonempty (tok : string) (c : ascii) :
  truthy (tok ++ String c EmptyString)%string = true.
Proof. destruct tok; reflexivity. Qed.

Lemma append_empty_r (s : string) : (s ++ "")%string = s.
Proof. induction s as [|c s IH]; cbn; [reflexivity | now rewrite IH]. Qed.

Lemma append_assoc (a b c : string) :
  ((a ++ b) ++ c)%string = (a ++ (b ++ c))%string.
Proof. induction a as [|x a IH]; cbn; [reflexivity | now rewrite IH]. Qed.

Lemma list_ascii_app (a b : string) :
  list_ascii_of_string (a ++ b)%string
  = (list_ascii_of_string a ++ list_ascii_of_string b)%list.
Proof. induction a as [|c a IH]; cbn; [reflexivity | now rewrite IH]. Qed.

(** What [split] returns are tokens. *)
Lemma split_from_tokens (s : string) :
  forall tok,
    Forall (fun c => isspace c = false) (list_ascii_of_string tok) ->
    Forall token (split_from tok s).
Proof.
  induction s as [|c s IH]; intros tok Htok; cbn [split_from].
  - destruct tok as [|c' tok]; cbn [truthy]; constructor; [|constructor].
    split; [discriminate | exact Htok].
  - destruct (isspace c) eqn:E.
    + destruct tok as [|c' tok]; cbn [truthy].
      * apply IH. constructor.
      * constructor; [split; [discriminate | exact Htok]|].
        apply IH. constructor.
    + apply IH. rewrite list_ascii_app. apply Forall_app. split; [exact Htok|].
      cbn. constructor; [exact E | constructor].
Qed.

Lemma split_tokens (s : string) : Forall token (split s).
Proof. apply split_from_tokens. constructor. Qed.

(** Reading on through a token. *)
Lemma split_from_token (t : string) :
  forall tok s,
    Forall (fun c => isspace c = false) (list_ascii_of_string t) ->
    split_from tok (t ++ s)%string = split_from (tok ++ t)%string s.
Proof.
  induction t as [|c t IH]; intros tok s Ht.
  - cbn [String.append]. rewrite append_empty_r. reflexivity.
  - cbn [list_ascii_of_string] in Ht. inversion Ht as [|? ? Hc Ht']; subst.
    cbn [String.append split_from]. rewrite Hc. rewrite IH by exact Ht'.
    rewrite append_assoc. reflexivity.
Qed.

(** Tokens joined by single spaces split back into themselves, in
    order. *)
Lemma split_concat (ts : list string) :
  Forall token ts -> split (String.concat " " ts) = ts.
Proof.
  unfold split. induction ts as [|t ts IH]; intros H; [reflexivity|].
  inversion H as [|? ? [Hne Ht] Hts]; subst.
  cbn [String.concat]. destruct ts as [|t' ts].
  - rewrite <- (append_empty_r t) at 1.
    rewrite split_from_token by exact Ht. cbn.
    destruct t; [congruence | reflexivity].
  - rewrite split_from_token by exact Ht.
    cbn [String.append]. rewrite split_from_cons.
    change (isspace " ") with true. cbv iota.
    destruct t; [congruence|]. cbn [truthy]. f_equal. apply IH. exact Hts.
Qed.

End TextFacts.

(** ** client.py: one request/response cycle *)

Section ClientFacts.
Import wire socket client.

Variable pickle_dumps : Command -> bytes.
Variable pickle_loads : bytes -> PyResult Response.

Local Abbreviation write := (dice_io.write pickle_dumps).
Local Abbreviation read := (dice_io.read pickle_loads).
Local Abbreviation _connect := client._connect.
Local Abbreviation _fire := (client._fire pickle_dumps pickle_loads).
Local Abbreviation check_and_reconnect :=
  (client.check_and_reconnect pickle_dumps pickle_loads).
Local Abbreviation fire_rec := (client.fire_rec pickle_dumps pickle_loads).
Local Abbreviation fire := (client.fire pickle_dumps pickle_loads).
Local Abbreviation fire_string := (client.fire_string pickle_dumps pickle_loads).
Local Abbreviation __init__ := (client.__init__ pickle_dumps pickle_loads).
Local Abbreviation Client_watch_ch := (client.Client_watch_ch pickle_dumps pickle_loads).
Local Abbreviation watch_body := (client.watch_body pickle_dumps pickle_loads).
Local Abbreviation _watch := (client._watch pickle_dumps pickle_loads).

Lemma remains_refl (A : Type) (l : list A) : remains l l.
Proof. exists []. reflexivity. Qed.

Lemma remains_trans (A : Type) (l1 l2 l3 : list A) :
  remains l1 l2 -> remains l2 l3 -> remains l1 l3.
Proof.
  intros [c1 H1] [c2 H2]. exists (c2 ++ c1). subst. now rewrite app_assoc.
Qed.

Lemma remains_length (A : Type) (l1 l2 : list A) :
  remains l1 l2 -> (length l1 <= length l2)%nat.
Proof. intros [c ->]. rewrite length_app. lia. Qed.

Lemma transport_only_remains (later earlier : list recv_outcome) :
  remains later earlier -> transport_only earlier -> transport_only later.
Proof.
  intros [c ->] H. unfold transport_only in *. apply Forall_app in H. tauto.
Qed.

(** The loop of [read] consumes a prefix of the script. *)
Lemma read_loop_remains (script : list recv_outcome) :
  forall result, remains (snd (dice_io.read_loop script result)) script.
Proof.
  induction script as [|o script IH]; intros result.
  - apply remains_refl.
  - cbn [dice_io.read_loop]. destruct o as [chunk|e].
    + destruct chunk as [|b chunk]; [exists [RecvData []]; reflexivity|].
      destruct (_ >? _)%Z; [eexists [_]; reflexivity|].
      destruct (_ <? _)%Z; [eexists [_]; reflexivity|].
      destruct (IH (result ++ b :: chunk)) as [c Hc].
      exists (RecvData (b :: chunk) :: c). cbn. now rewrite <- Hc.
    + eexists [_]. reflexivity.
Qed.

(** On socket errors alone the loop never lets an exception through. *)
Lemma read_loop_catches (script : list recv_outcome) :
  forall result e,
    transport_only script ->
    fst (dice_io.read_loop script result) <> dice_io.Propagate e.
Proof.
  induction script as [|o script IH]; intros result e H.
  - cbn. discriminate.
  - inversion H as [|? ? Ho Hs]; subst. cbn [dice_io.read_loop].
    destruct o as [chunk|e'].
    + destruct chunk as [|b chunk]; [cbn; discriminate|].
      destruct (_ >? _)%Z; [cbn; discriminate|].
      destruct (_ <? _)%Z; [cbn; discriminate|].
      apply IH. exact Hs.
    + cbn. unfold dice_io.recv_raised. rewrite Ho. discriminate.
Qed.

Lemma deserialize_returns (data : bytes) :
  exists r, dice_io.deserialize pickle_loads data = Ret r.
Proof.
  unfold dice_io.deserialize. destruct (pickle_loads data) as [r|e].
  - exists r. reflexivity.
  - eexists. reflexivity.
Qed.

(** [read]: touches nothing but the [recv] script, and on socket errors
    alone it returns a Response. *)
Lemma read_spec (cn : option fd) (w : World) :
  exists r w',
    read cn w = (r, w') /\
    connects w' = connects w /\ sends w' = sends w /\
    next_fd w' = next_fd w /\ next_obj w' = next_obj w /\
    trace w' = trace w /\
    remains (recvs w') (recvs w) /\
    (cn <> None -> transport_only (recvs w) -> exists resp, r = Ret resp).
Proof.
  unfold dice_io.read. destruct cn as [s|].
  - pose proof (read_loop_remains (recvs w) []) as Hrem.
    pose proof (fun e => @read_loop_catches (recvs w) [] e) as Hcatch.
    destruct (dice_io.read_loop (recvs w) []) as [exit rest]. cbn [fst snd] in *.
    destruct exit as [[|b result]|r|e].
    + do 2 eexists. repeat split; try reflexivity; eauto.
    + destruct (deserialize_returns (b :: result)) as [r Hr]. rewrite Hr.
      do 2 eexists. repeat split; try reflexivity; eauto.
    + do 2 eexists. repeat split; try reflexivity; eauto.
    + do 2 eexists. repeat split; try reflexivity; eauto.
      intros _ Ht. exfalso. exact (Hcatch e Ht eq_refl).
  - do 2 eexists. repeat split; try reflexivity.
    + apply remains_refl.
    + congruence.
Qed.

(** [write]: never raises; logs the one [sendall] it makes. *)
Lemma write_spec (cn : option fd) (c : Command) (w : World) :
  exists ok w',
    write cn c w = (Ret ok, w') /\
    connects w' = connects w /\ recvs w' = recvs w /\
    next_fd w' = next_fd w /\ next_obj w' = next_obj w /\
    remains (sends w') (sends w) /\
    trace w' = trace w ++ match cn with
                          | Some s => [EvSendall s (pickle_dumps c)]
                          | None => []
                          end /\
    (cn = None -> ok = false).
Proof.
  unfold dice_io.write, dice_io.serialize, try_except, bind, ret, raise,
    sendall, any_Exception.
  destruct cn as [s|]; cbn.
  - destruct (sends w) as [|[e|] rest] eqn:Es; cbn;
      do 2 eexists; repeat split; try reflexivity; try congruence;
      cbn; try rewrite Es;
      first [apply remains_refl | eexists [_]; reflexivity].
  - do 2 eexists. repeat split; try reflexivity.
    + apply remains_refl.
    + now rewrite app_nil_r.
Qed.


(** One cycle: the client object is untouched, no socket is opened, and
    on socket errors alone a Response comes back. *)
Lemma _fire_spec (c : Command) (cn : option fd) (st : State) :
  exists r st',
    _fire c cn st = (r, st') /\
    self st' = self st /\
    connects (world st') = connects (world st) /\
    next_fd (world st') = next_fd (world st) /\
    next_obj (world st') = next_obj (world st) /\
    remains (recvs (world st')) (recvs (world st)) /\
    trace (world st') = trace (world st) ++ match cn with
                                            | Some s => [EvSendall s (pickle_dumps c)]
                                            | None => []
                                            end /\
    (transport_only (recvs (world st)) -> exists resp, r = Ret resp).
Proof.
  unfold client._fire, bind, io.
  destruct (write_spec cn c (world st))
    as (ok & w1 & E & Hc & Hr & Hfd & Hobj & _ & Ht & Hnone).
  rewrite E. destruct ok; cbn [negb world self].
  - destruct (read_spec cn w1)
      as (r & w2 & E2 & Hc2 & _ & Hfd2 & Hobj2 & Ht2 & Hr2 & Hret).
    rewrite E2. exists r, (mkState (self st) w2). cbn [self world].
    splits; try congruence.
    intros Htr. apply Hret.
    + intros ->. specialize (Hnone eq_refl). discriminate.
    + rewrite Hr. exact Htr.
  - exists (Ret (error_response "Failed to write command to socket")),
      (mkState (self st) w1).
    cbn [self world]. splits; try congruence.
    + reflexivity.
    + rewrite Hr. apply remains_refl.
    + intros _. eexists. reflexivity.
Qed.

(** [_connect]: a fresh socket becomes [self.conn] before the dial, the
    dial takes one scripted [connect], and it is logged. *)
Lemma _connect_spec (st : State) :
  exists r st',
    _connect st = (r, st') /\
    self st' = set_conn (Some (next_fd (world st))) (self st) /\
    recvs (world st') = recvs (world st) /\
    next_obj (world st') = next_obj (world st) /\
    trace (world st') =
      trace (world st)
      ++ [EvConnect (next_fd (world st)) (host (self st)) (port (self st))] /\
    (length (connects (world st')) <= length (connects (world st)))%nat /\
    (r = Ret tt ->
     (length (connects (world st')) < length (connects (world st)))%nat).
Proof.
  destruct st as [c w].
  unfold client._connect, try_except, bind, io, socket, assign, modify, attr,
    gets, connect, raise. cbn.
  destruct (connects w) as [|[e|] rest] eqn:E; cbn.
  - do 2 eexists. splits; try reflexivity; cbn; try lia. discriminate.
  - destruct (is_socket_error e); cbn;
      do 2 eexists; splits; try reflexivity; cbn; try lia; discriminate.
  - do 2 eexists. splits; try reflexivity; cbn; lia.
Qed.


(** ** client.py: the reconnect procedure *)

(** [check_and_reconnect] never raises.  It changes no attribute but
    [conn]; when the message names a dead connection it closes the old
    control socket, dials a fresh one that becomes [self.conn], and, if
    the dial succeeded, sends on it the handshake with the client's
    identity and the tag [command]: one dial, at most one handshake.
    A [True] answer has taken one scripted [connect]. *)
Lemma check_and_reconnect_spec (error : string) (st : State) :
  exists ok st',
    check_and_reconnect error st = (Ret ok, st') /\
    self st' = set_conn (conn (self st')) (self st) /\
    next_obj (world st') = next_obj (world st) /\
    remains (recvs (world st')) (recvs (world st)) /\
    (length (connects (world st')) <= length (connects (world st)))%nat /\
    (ok = true ->
     (length (connects (world st')) < length (connects (world st)))%nat) /\
    if dead_connection error then
      conn (self st') = Some (next_fd (world st)) /\
      exists hs,
        trace (world st') =
          trace (world st)
          ++ match conn (self st) with Some s => [EvClose s] | None => [] end
          ++ EvConnect (next_fd (world st)) (host (self st)) (port (self st))
             :: hs /\
        (hs = [] \/
         hs = [EvSendall (next_fd (world st))
                 (pickle_dumps (handshake (id (self st)) "command"))])
    else st' = st /\ ok = false.
Proof.
  unfold client.check_and_reconnect.
  change (str_in "EOF" error || str_in "Broken pipe" error)
    with (dead_connection error).
  destruct (dead_connection error).
  2: { exists false, st. unfold ret. splits; auto using remains_refl.
       - destruct st as [[] ?]; reflexivity.
       - discriminate. }
  unfold try_except, bind, attr, gets.
  set (st0 := mkState (self st)
                (match conn (self st) with
                 | Some s => log (EvClose s) (world st)
                 | None => world st
                 end)).
  assert (E0 : match conn (self st) with
               | Some s => io (close s)
               | None => ret tt
               end st = (Ret tt, st0)).
  { subst st0. destruct st as [c w]. cbn. destruct (conn c); reflexivity. }
  rewrite E0.
  assert (Hst0 : self st0 = self st /\ recvs (world st0) = recvs (world st) /\
                 connects (world st0) = connects (world st) /\
                 next_fd (world st0) = next_fd (world st) /\
                 next_obj (world st0) = next_obj (world st) /\
                 trace (world st0) =
                   trace (world st)
                   ++ match conn (self st) with Some s => [EvClose s] | None => [] end).
  { subst st0. cbn. destruct (conn (self st)); cbn; splits; try reflexivity.
    now rewrite app_nil_r. }
  destruct Hst0 as (Hs0 & Hr0 & Hc0 & Hfd0 & Hobj0 & Ht0).
  clearbody st0. clear E0.
  destruct (_connect_spec st0) as (r1 & st1 & E1 & Hs1 & Hr1 & Hobj1 & Ht1 & Hc1 & Hlt1).
  rewrite E1.
  assert (Hself1 : self st1 = set_conn (conn (self st1)) (self st)).
  { rewrite Hs1, Hs0. destruct (self st); reflexivity. }
  assert (Hconn1 : conn (self st1) = Some (next_fd (world st))).
  { rewrite Hs1, Hfd0. reflexivity. }
  assert (Htr1 : trace (world st1) =
                 trace (world st)
                 ++ match conn (self st) with Some s => [EvClose s] | None => [] end
                 ++ [EvConnect (next_fd (world st)) (host (self st)) (port (self st))]).
  { rewrite Ht1, Ht0, Hs0, Hfd0, app_assoc. reflexivity. }
  destruct r1 as [[]|e1].
  - specialize (Hlt1 eq_refl).
    destruct (_fire_spec (handshake (id (self st1)) "command") (conn (self st1)) st1)
      as (r2 & st2 & E2 & Hs2 & Hc2 & Hfd2 & Hobj2 & Hr2 & Ht2 & _).
    rewrite E2.
    assert (Htr2 : trace (world st2) =
                   trace (world st)
                   ++ match conn (self st) with Some s => [EvClose s] | None => [] end
                   ++ EvConnect (next_fd (world st)) (host (self st)) (port (self st))
                      :: [EvSendall (next_fd (world st))
                            (pickle_dumps (handshake (id (self st)) "command"))]).
    { rewrite Ht2, Htr1, Hconn1. rewrite Hself1. cbn [id set_conn].
      rewrite <- !app_assoc. reflexivity. }
    assert (Hrem : remains (recvs (world st2)) (recvs (world st))).
    { rewrite <- Hr0, <- Hr1. exact Hr2. }
    assert (Hfinal : forall ok, exists ok' st',
      (Ret ok, st2) = (Ret ok', st') /\
      self st' = set_conn (conn (self st')) (self st) /\
      next_obj (world st') = next_obj (world st) /\
      remains (recvs (world st')) (recvs (world st)) /\
      (length (connects (world st')) <= length (connects (world st)))%nat /\
      (ok' = true ->
       (length (connects (world st')) < length (connects (world st)))%nat) /\
      conn (self st') = Some (next_fd (world st)) /\
      exists hs,
        trace (world st') =
          trace (world st)
          ++ match conn (self st) with Some s => [EvClose s] | None => [] end
          ++ EvConnect (next_fd (world st)) (host (self st)) (port (self st))
             :: hs /\
        (hs = [] \/
         hs = [EvSendall (next_fd (world st))
                 (pickle_dumps (handshake (id (self st)) "command"))])).
    { intros ok. exists ok, st2. splits; try congruence.
      eexists. split; [exact Htr2 | right; reflexivity]. }
    destruct r2 as [resp|e2].
    + destruct (truthy (err resp)); apply Hfinal.
    + unfold any_Exception. apply Hfinal.
  - unfold any_Exception, ret. exists false, st1. splits; try congruence.
    + rewrite <- Hr0, <- Hr1. apply remains_refl.
    + eexists. split; [exact Htr1 | left; reflexivity].
Qed.


(** ** client.py: [fire] *)

(** The nesting depth given to [fire_rec] does not matter once it
    exceeds the number of connects left in the script. *)
Lemma fire_rec_depth (n : nat) :
  forall (m : nat) (c : Command) (st : State),
    (length (connects (world st)) < n)%nat ->
    (length (connects (world st)) < m)%nat ->
    fire_rec n c st = fire_rec m c st.
Proof.
  induction n as [|n IH]; intros m c st Hn Hm; [lia|].
  destruct m as [|m]; [lia|].
  cbn [client.fire_rec]. unfold bind, attr, gets.
  destruct (_fire_spec c (conn (self st)) st) as (r & st1 & E & _ & Hc & _).
  rewrite E. destruct r as [result|e]; [|reflexivity].
  destruct (truthy (err result)); [|reflexivity].
  destruct (check_and_reconnect_spec (err result) st1)
    as (ok & st2 & E2 & _ & _ & _ & _ & Hlt & _).
  rewrite E2. destruct ok; [|reflexivity].
  specialize (Hlt eq_refl). rewrite Hc in Hlt. apply IH; lia.
Qed.

(** [fire] is one cycle, then on an error one call of
    [check_and_reconnect], then on a [True] answer [fire] again. *)
Lemma fire_unfold (c : Command) (st : State) :
  fire c st =
  match _fire c (conn (self st)) st with
  | (Ret result, st1) =>
      if truthy (err result) then
        match check_and_reconnect (err result) st1 with
        | (Ret true, st2) => fire c st2
        | (Ret false, st2) => (Ret result, st2)
        | (Raise e, st2) => (Raise e, st2)
        end
      else (Ret result, st1)
  | (Raise e, st1) => (Raise e, st1)
  end.
Proof.
  unfold client.fire at 1. cbn [client.fire_rec]. unfold bind, attr, gets.
  destruct (_fire_spec c (conn (self st)) st) as (r & st1 & E & _ & Hc & _).
  rewrite E. destruct r as [result|e]; [|reflexivity].
  destruct (truthy (err result)); [|reflexivity].
  destruct (check_and_reconnect_spec (err result) st1)
    as (ok & st2 & E2 & _ & _ & _ & _ & Hlt & _).
  rewrite E2. destruct ok; [|reflexivity].
  specialize (Hlt eq_refl). rewrite Hc in Hlt.
  unfold client.fire. apply fire_rec_depth; lia.
Qed.


(** On socket errors alone [fire] always comes back with a Response. *)
Lemma fire_rec_returns (n : nat) :
  forall (c : Command) (st : State),
    (length (connects (world st)) < n)%nat ->
    transport_only (recvs (world st)) ->
    exists r st',
      fire_rec n c st = (Ret r, st') /\ transport_only (recvs (world st')).
Proof.
  induction n as [|n IH]; intros c st Hn Htr; [lia|].
  cbn [client.fire_rec]. unfold bind, attr, gets.
  destruct (_fire_spec c (conn (self st)) st)
    as (r & st1 & E & _ & Hc & _ & _ & Hrem & _ & Hret).
  rewrite E. destruct (Hret Htr) as [result ->].
  pose proof (transport_only_remains Hrem Htr) as Htr1.
  destruct (truthy (err result)); [|unfold ret; eauto].
  destruct (check_and_reconnect_spec (err result) st1)
    as (ok & st2 & E2 & _ & _ & Hrem2 & _ & Hlt & _).
  rewrite E2. pose proof (transport_only_remains Hrem2 Htr1) as Htr2.
  destruct ok; [|unfold ret; eauto].
  specialize (Hlt eq_refl). rewrite Hc in Hlt. apply IH; [lia | exact Htr2].
Qed.

Lemma fire_returns (c : Command) (st : State) :
  transport_only (recvs (world st)) ->
  exists r st', fire c st = (Ret r, st') /\ transport_only (recvs (world st')).
Proof. intros H. unfold client.fire. apply fire_rec_returns; [lia | exact H]. Qed.


(** ** client.py: [fire_string] *)

(** C9: when the text has at least one whitespace-delimited token,
    [fire_string] answers what [fire] answers on the Command named by the
    first token with the remaining tokens, in order, as arguments. *)
Theorem fire_string_delegates
    (text : string) (st : State) (name : string) (arguments : list string) :
  split text = name :: arguments ->
  fire_string text st = fire (mkCommand name arguments) st.
Proof.
  intros H. unfold client.fire_string. rewrite split_strip, H.
  cbn [nth_error length skipn]. destruct arguments as [|a arguments]; reflexivity.
Qed.

(** C10: on an empty or all-whitespace text [fire_string] raises
    [IndexError]; nothing was sent and no Response is returned. *)
Theorem fire_string_blank_raises (text : string) (st : State) :
  blank text ->
  fire_string text st
  = (Raise (Exn IndexError "list index out of range"), st).
Proof.
  intros H. unfold client.fire_string. rewrite split_strip, (split_blank H).
  reflexivity.
Qed.

End ClientFacts.


(** One call of [fire] on the flaky session: the command goes out three
    times, on three sockets, with two reconnects in between. *)
Example flaky_session_trace :
  client.fire toy.dumps toy.loads PING flaky_session
  = (Ret PONG,
     client.mkState
       (client.mkClient "localhost" 7379 "6f1e" (Some 2) None None None)
       (socket.mkWorld [] [] [] 3 0
          [socket.EvSendall 0 (toy.dumps PING);
           socket.EvClose 0;
           socket.EvConnect 1 "localhost" 7379;
           socket.EvSendall 1 (toy.dumps (client.handshake "6f1e" "command"));
           socket.EvSendall 1 (toy.dumps PING);
           socket.EvClose 1;
           socket.EvConnect 2 "localhost" 7379;
           socket.EvSendall 2 (toy.dumps (client.handshake "6f1e" "command"));
           socket.EvSendall 2 (toy.dumps PING)])).
Proof. vm_compute. reflexivity. Qed.



(** ** client.py: opening the subscription *)

Section WatchFacts.
Import wire socket client.

Variable pickle_dumps : Command -> bytes.
Variable pickle_loads : bytes -> PyResult Response.

Local Abbreviation _fire := (client._fire pickle_dumps pickle_loads).
Local Abbreviation check_and_reconnect :=
  (client.check_and_reconnect pickle_dumps pickle_loads).
Local Abbreviation Client_watch_ch := (client.Client_watch_ch pickle_dumps pickle_loads).
Local Abbreviation watch_body := (client.watch_body pickle_dumps pickle_loads).
Local Abbreviation _watch := (client._watch pickle_dumps pickle_loads).

Lemma bind_Ret_inv (S A B : Type) (m : M S A) (k : A -> M S B)
    (s s' : S) (b : B) :
  bind m k s = (Ret b, s') ->
  exists a s1, m s = (Ret a, s1) /\ k a s1 = (Ret b, s').
Proof.
  unfold bind. destruct (m s) as [[a|e] s1]; [eauto | discriminate].
Qed.

Lemma try_except_Ret_inv (S A : Type) (body : M S A) (catches : exn -> bool)
    (handler : exn -> M S A) (s s' : S) (a : A) :
  try_except body catches handler s = (Ret a, s') ->
  body s = (Ret a, s') \/
  exists e s1, body s = (Raise e, s1) /\ handler e s1 = (Ret a, s').
Proof.
  unfold try_except. destruct (body s) as [[a'|e] s1]; [auto|].
  destruct (catches e); [eauto | discriminate].
Qed.

(** A call that returned the tuple has left the event in the attribute
    [watch_ch]. *)
Lemma Client_watch_ch_opened (st st1 : State) (ev q : nat) :
  Client_watch_ch st = (Ret (EventAndQueue ev q), st1) ->
  watch_ch (self st1) = Some ev.
Proof.
  unfold client.Client_watch_ch. intros H.
  apply bind_Ret_inv in H. destruct H as (wc & s0 & _ & H).
  destruct wc as [ev0|]; [discriminate|].
  do 4 (apply bind_Ret_inv in H; destruct H as (? & ? & _ & H)).
  apply try_except_Ret_inv in H. destruct H as [H | (e & s1 & _ & H)].
  - do 8 (apply bind_Ret_inv in H; destruct H as (? & ? & _ & H)).
    destruct (truthy _); [discriminate|].
    apply bind_Ret_inv in H. destruct H as (? & ? & _ & H).
    apply bind_Ret_inv in H. destruct H as (wc & s2 & Hwc & H).
    apply bind_Ret_inv in H. destruct H as (wq & s3 & Hwq & H).
    unfold attr, gets in Hwc, Hwq. inversion Hwc; subst. inversion Hwq; subst.
    destruct (watch_ch (self s3)) as [ev'|] eqn:E; [|discriminate].
    destruct (watch_queue (self s3)) as [[q' items]|]; [|discriminate].
    unfold ret in H. inversion H; subst. exact E.
  - apply bind_Ret_inv in H. destruct H as (? & ? & _ & H). discriminate.
Qed.

(** C4: once the subscription is open, the method does not dial, shake
    hands or start a thread again, and the state is left as it was; but
    what it returns is the bare event, not the tuple of event and queue
    the first call returned, and the call spelled [c.watch_ch()] reaches
    the event stored under the same name instead of the method. *)
Theorem reopen_returns_bare_event (st st1 : State) (ev q : nat) :
  Client_watch_ch st = (Ret (EventAndQueue ev q), st1) ->
  Client_watch_ch st1 = (Ret (Event ev), st1) /\
  Event ev <> EventAndQueue ev q /\
  call_watch_ch_attribute st1
  = (Raise (Exn TypeError "'Event' object is not callable"), st1).
Proof.
  intros H. apply Client_watch_ch_opened in H.
  unfold client.Client_watch_ch, call_watch_ch_attribute, bind, attr, gets.
  rewrite H. splits; [reflexivity | discriminate | reflexivity].
Qed.


(** ** client.py: the watch loop *)

Section Respects.

Variable R : State -> State -> Prop.
Hypothesis R_refl : forall s, R s s.
Hypothesis R_trans : forall a b c, R a b -> R b c -> R a c.

Lemma respects_ret (A : Type) (a : A) : respects R (ret a).
Proof. intros s r s' H. inversion H; subst. apply R_refl. Qed.

Lemma respects_raise (A : Type) (e : exn) : respects R (@raise State A e).
Proof. intros s r s' H. inversion H; subst. apply R_refl. Qed.

Lemma respects_attr (A : Type) (f : Client -> A) : respects R (attr f).
Proof. intros s r s' H. inversion H; subst. apply R_refl. Qed.

Lemma respects_bind (A B : Type) (m : M State A) (k : A -> M State B) :
  respects R m -> (forall a, respects R (k a)) -> respects R (bind m k).
Proof.
  intros Hm Hk s r s' H. unfold bind in H.
  destruct (m s) as [[a|e] s1] eqn:E.
  - eapply R_trans; [eapply Hm; exact E | eapply Hk; exact H].
  - inversion H; subst. eapply Hm; exact E.
Qed.

Lemma respects_try_except (A : Type) (body : M State A)
    (catches : exn -> bool) (handler : exn -> M State A) :
  respects R body -> (forall e, respects R (handler e)) ->
  respects R (try_except body catches handler).
Proof.
  intros Hb Hh s r s' H. unfold try_except in H.
  destruct (body s) as [[a|e] s1] eqn:E.
  - inversion H; subst. eapply Hb; exact E.
  - destruct (catches e).
    + eapply R_trans; [eapply Hb; exact E | eapply Hh; exact H].
    + inversion H; subst. eapply Hb; exact E.
Qed.

End Respects.

Lemma command_handshakes_only_refl (s : State) :
  command_handshakes_only pickle_dumps s s.
Proof.
  unfold command_handshakes_only.
  splits; try reflexivity. exists []. split; [now rewrite app_nil_r|].
  intros ? ? [].
Qed.

Lemma command_handshakes_only_trans (a b c : State) :
  command_handshakes_only pickle_dumps a b ->
  command_handshakes_only pickle_dumps b c ->
  command_handshakes_only pickle_dumps a c.
Proof.
  intros (Hid1 & Hw1 & new1 & Ht1 & Hs1) (Hid2 & Hw2 & new2 & Ht2 & Hs2).
  unfold command_handshakes_only. splits; try congruence.
  exists (new1 ++ new2). split.
  - rewrite Ht2, Ht1, app_assoc. reflexivity.
  - intros s d Hin. apply in_app_or in Hin. destruct Hin as [Hin|Hin].
    + eapply Hs1; exact Hin.
    + rewrite <- Hid1. eapply Hs2; exact Hin.
Qed.

Lemma check_and_reconnect_respects (error : string) :
  respects (command_handshakes_only pickle_dumps) (check_and_reconnect error).
Proof.
  intros s r s' H.
  destruct (check_and_reconnect_spec pickle_dumps pickle_loads error s)
    as (ok & st' & E & Hself & _ & _ & _ & _ & Hshape).
  rewrite E in H. inversion H; subst r s'. clear H.
  unfold command_handshakes_only. splits.
  - rewrite Hself. reflexivity.
  - rewrite Hself. reflexivity.
  - destruct (dead_connection error).
    + destruct Hshape as (_ & hs & Ht & Hhs). eexists. split; [exact Ht|].
      intros s0 d Hin. apply in_app_or in Hin. destruct Hin as [Hin|Hin].
      * destruct (conn (self s)); [|destruct Hin].
        destruct Hin as [Hin|[]]. discriminate.
      * destruct Hin as [Hin|Hin]; [discriminate|].
        destruct Hhs as [-> | ->]; [destruct Hin|].
        destruct Hin as [Hin|[]]. inversion Hin. reflexivity.
    + destruct Hshape as [-> _]. exists []. split; [now rewrite app_nil_r|].
      intros ? ? [].
Qed.

Lemma read_respects (cn : option fd) :
  respects (command_handshakes_only pickle_dumps)
           (io (dice_io.read pickle_loads cn)).
Proof.
  intros s r s' H. unfold io in H.
  destruct (read_spec pickle_loads cn (world s)) as (r0 & w' & E & _ & _ & _ & _ & Ht & _).
  rewrite E in H. inversion H; subst.
  unfold command_handshakes_only. cbn [self world].
  splits; try reflexivity. exists []. split; [now rewrite app_nil_r|].
  intros ? ? [].
Qed.

Lemma queue_append_respects (resp : Response) :
  respects (command_handshakes_only pickle_dumps) (queue_append resp).
Proof.
  intros s r s' H. unfold queue_append, bind, attr, gets, assign, modify, raise in H.
  unfold command_handshakes_only.
  destruct (watch_queue (self s)) as [[q items]|]; inversion H; subst;
    (splits; try reflexivity; exists []; split; [now rewrite app_nil_r|];
     intros ? ? []).
Qed.

Lemma watch_body_respects :
  respects (command_handshakes_only pickle_dumps) watch_body.
Proof.
  pose proof command_handshakes_only_refl as Hr.
  pose proof command_handshakes_only_trans as Ht.
  unfold client.watch_body.
  apply respects_try_except; auto.
  - apply respects_bind; auto using respects_attr. intros wcn.
    apply respects_bind; auto using read_respects. intros resp.
    apply respects_bind; auto using queue_append_respects, respects_ret.
  - intros e. apply respects_bind; auto using check_and_reconnect_respects.
    intros ok. destruct ok; cbn [negb]; auto using respects_ret.
    apply respects_bind; auto using queue_append_respects, respects_ret.
Qed.

Lemma _watch_respects (n : nat) :
  respects (command_handshakes_only pickle_dumps) (_watch n).
Proof.
  pose proof command_handshakes_only_refl as Hr.
  pose proof command_handshakes_only_trans as Ht.
  induction n as [|n IH]; cbn [client._watch].
  - apply respects_bind; auto using respects_attr.
    intros [ev|]; auto using respects_ret, respects_raise.
  - apply respects_bind; auto using respects_attr.
    intros [ev|]; auto using respects_raise.
    apply respects_bind; auto using watch_body_respects.
    intros again. destruct again; auto using respects_ret.
Qed.


(** When reads fail the way sockets fail, one turn of the loop queues
    what [read] returned and goes round again: no reconnect, no
    [break]. *)
Lemma watch_body_on_socket_errors (st : State) (wc : fd) (q : nat)
    (items : list Response) :
  watch_conn (self st) = Some wc ->
  watch_queue (self st) = Some (q, items) ->
  transport_only (recvs (world st)) ->
  exists resp w',
    watch_body st
    = (Ret true,
       mkState (set_watch_queue (Some (q, items ++ [resp])) (self st)) w') /\
    trace w' = trace (world st) /\
    remains (recvs w') (recvs (world st)).
Proof.
  intros Hwc Hq Htr.
  unfold client.watch_body, try_except, bind, attr, gets, io. rewrite Hwc.
  destruct (read_spec pickle_loads (Some wc) (world st))
    as (r & w' & E & _ & _ & _ & _ & Ht & Hrem & Hret).
  rewrite E. destruct (Hret ltac:(discriminate) Htr) as [resp ->].
  unfold queue_append, bind, attr, gets. cbn [self]. rewrite Hq.
  exists resp, w'. splits; [reflexivity | exact Ht | exact Hrem].
Qed.

(** The [except] branch of the loop is reached when [read] itself
    raises, which a socket error never makes it do; there a failed
    reconnect queues the [Watch error] entry and breaks. *)
Lemma watch_body_gives_up (st st2 : State) (wc : fd) (e : exn) (w' : World)
    (q : nat) (items : list Response) :
  watch_conn (self st) = Some wc ->
  watch_queue (self st) = Some (q, items) ->
  dice_io.read pickle_loads (Some wc) (world st) = (Raise e, w') ->
  check_and_reconnect (exn_str e) (mkState (self st) w') = (Ret false, st2) ->
  watch_body st
  = (Ret false,
     mkState
       (set_watch_queue
          (Some (q, items ++ [error_response ("Watch error: " ++ exn_str e)]))
          (self st2))
       (world st2)).
Proof.
  intros Hwc Hq Hread Hrec.
  destruct (check_and_reconnect_spec pickle_dumps pickle_loads (exn_str e)
              (mkState (self st) w')) as (ok & st2' & E & Hself & _).
  rewrite Hrec in E. inversion E; subst ok st2'. clear E.
  unfold client.watch_body, try_except, bind, attr, gets, io. rewrite Hwc, Hread.
  unfold any_Exception. rewrite Hrec. cbn [negb].
  assert (Hq2 : watch_queue (self st2) = Some (q, items)).
  { rewrite Hself. cbn [self watch_queue set_conn]. exact Hq. }
  unfold queue_append, bind, attr, gets. rewrite Hq2. reflexivity.
Qed.

Lemma watch_loop_on_socket_errors (unset_polls : nat) :
  forall (st : State) (ev : nat) (wc : fd) (q : nat) (items : list Response),
    watch_ch (self st) = Some ev ->
    watch_conn (self st) = Some wc ->
    watch_queue (self st) = Some (q, items) ->
    transport_only (recvs (world st)) ->
    exists st' new,
      _watch unset_polls st = (Ret StopSet, st') /\
      watch_queue (self st') = Some (q, items ++ new) /\
      length new = unset_polls /\
      trace (world st') = trace (world st).
Proof.
  induction unset_polls as [|n IH]; intros st ev wc q items Hch Hwc Hq Htr;
    cbn [client._watch]; unfold bind at 1, attr, gets; rewrite Hch.
  - exists st, []. rewrite app_nil_r. auto.
  - destruct (watch_body_on_socket_errors st Hwc Hq Htr)
      as (resp & w' & E & Ht & Hrem).
    unfold bind. rewrite E.
    destruct (IH (mkState (set_watch_queue (Some (q, items ++ [resp])) (self st)) w')
                 ev wc q (items ++ [resp]))
      as (st' & new & E' & Hq' & Hlen & Ht'); try assumption; try reflexivity.
    + cbn. eapply transport_only_remains; eassumption.
    + exists st', (resp :: new). rewrite E'. splits; try reflexivity.
      * rewrite Hq', <- app_assoc. reflexivity.
      * cbn. now rewrite Hlen.
      * cbn in Ht'. congruence.
Qed.

End WatchFacts.


(** C3 fails on the code: with the server gone, three reads in a row
    fail; each failure is queued as an ordinary Response, no reconnect
    is attempted (nothing is closed or dialed), no [Watch error] entry
    is queued, and the loop is left only when the event is seen set. *)
Theorem watch_loop_outlives_read_failures :
  client._watch toy.dumps toy.loads 3 dead_watch_session
  = (Ret client.StopSet,
     client.mkState
       (client.set_watch_queue
          (Some (1, [wire.error_response "[Errno 104] Connection reset by peer";
                     wire.error_response "Empty response or connection closed";
                     wire.error_response "Empty response or connection closed"]))
          watching_client)
       (socket.mkWorld [] [] [] 2 2 [])).
Proof. vm_compute. reflexivity. Qed.

(** On a server that accepts the watch handshake, the first call opens
    the subscription and returns the tuple; the second returns the bare
    event. *)
Lemma reopen_returns_bare_event_witness :
  client.Client_watch_ch toy.dumps toy.loads opened_session
  = (Ret (client.Event 0), opened_session) /\
  client.Event 0 <> client.EventAndQueue 0 1 /\
  client.call_watch_ch_attribute opened_session
  = (Raise (Exn TypeError "'Event' object is not callable"), opened_session).
Proof.
  apply (@reopen_returns_bare_event toy.dumps toy.loads
           watch_ready_session opened_session 0 1).
  reflexivity.
Defined.

(** Before the subscription is open the instance attribute is [None],
    and the call spelled [c.watch_ch()] fails on it. *)
Example call_on_instance_before_open :
  client.call_watch_ch_attribute watch_ready_session
  = (Raise (Exn TypeError "'NoneType' object is not callable"),
     watch_ready_session).
Proof. reflexivity. Qed.

(** What the first call did: one dial, the [watch] handshake, one
    thread. *)
Example first_open_run :
  client.Client_watch_ch toy.dumps toy.loads watch_ready_session
  = (Ret (client.EventAndQueue 0 1),
     client.mkState
       (client.mkClient "localhost" 7379 "6f1e" (Some 0) (Some 1) (Some 0)
                        (Some (1, [])))
       (socket.mkWorld [] [] [] 2 2
          [socket.EvConnect 1 "localhost" 7379;
           socket.EvSendall 1 (toy.dumps (client.handshake "6f1e" "watch"));
           socket.EvThreadStart])).
Proof. vm_compute. reflexivity. Qed.


(** Runs of whitespace are skipped on both sides and between the
    tokens. *)
Lemma fire_string_delegates_witness :
  client.fire_string toy.dumps toy.loads "  SET  k v " flaky_session
  = client.fire toy.dumps toy.loads (wire.mkCommand "SET" ["k"; "v"]) flaky_session.
Proof.
  apply (@fire_string_delegates toy.dumps toy.loads "  SET  k v " flaky_session
           "SET" ["k"; "v"]).
  reflexivity.
Defined.

Lemma fire_string_blank_raises_witness :
  client.fire_string toy.dumps toy.loads "   " flaky_session
  = (Raise (Exn IndexError "list index out of range"), flaky_session).
Proof.
  apply (@fire_string_blank_raises toy.dumps toy.loads "   " flaky_session).
  repeat constructor.
Defined.

(** * Further properties *)

(** ** io.py: framing by short reads *)

Section FramingFacts.
Import wire socket dice_io.

Variable pickle_loads : bytes -> PyResult Response.

(** Full chunks are accumulated until a read shorter than the buffer,
    an empty one included, ends the message. *)
Lemma read_loop_message (pre : list bytes) :
  forall (result last : bytes) (rest : list recv_outcome),
    Forall full_chunk pre ->
    (len last < IO_BUFFER_SIZE)%Z ->
    (len result + len (concat pre) + len last <= MAX_REQUEST_SIZE)%Z ->
    read_loop (map RecvData pre ++ RecvData last :: rest) result
    = (Break (result ++ concat pre ++ last), rest).
Proof.
  intros result last rest Hfull Hshort Hsum.
  destruct last as [|b last].
  - clear Hshort. revert result Hsum.
    induction pre as [|c pre IH]; intros result Hsum.
    + cbn [map app read_loop concat]. now rewrite !app_nil_r.
    + inversion Hfull as [|? ? Hc Hpre]; subst.
      pose proof (full_chunk_nonempty Hc) as Hcne.
      cbn [map app read_loop]. destruct c as [|b c]; [congruence|].
      cbn [concat] in Hsum. rewrite len_app in Hsum.
      pose proof (len_nonneg (concat pre)).
      change (len (@nil Byte.byte)) with 0%Z in Hsum.
      destruct (len result + len (b :: c) >? MAX_REQUEST_SIZE)%Z eqn:E; [lia|].
      unfold full_chunk in Hc.
      destruct (len (b :: c) <? IO_BUFFER_SIZE)%Z eqn:E2; [lia|].
      rewrite IH; auto.
      * cbn [concat]. rewrite <- !app_assoc. reflexivity.
      * rewrite len_app. change (len (@nil Byte.byte)) with 0%Z. lia.
  - apply read_loop_within_limit; auto. discriminate.
Qed.

(** A socket error after full chunks ends the loop with the error. *)
Lemma read_loop_error (pre : list bytes) :
  forall (result : bytes) (e : exn) (rest : list recv_outcome),
    Forall full_chunk pre ->
    (len result + len (concat pre) <= MAX_REQUEST_SIZE)%Z ->
    read_loop (map RecvData pre ++ RecvRaise e :: rest) result
    = (recv_raised e, rest).
Proof.
  induction pre as [|c pre IH]; intros result e rest Hfull Hsum.
  - reflexivity.
  - inversion Hfull as [|? ? Hc Hpre]; subst.
    pose proof (full_chunk_nonempty Hc) as Hcne.
    cbn [map app read_loop]. destruct c as [|b c]; [congruence|].
    cbn [concat] in Hsum. rewrite len_app in Hsum.
    pose proof (len_nonneg (concat pre)).
    destruct (len result + len (b :: c) >? MAX_REQUEST_SIZE)%Z eqn:E; [lia|].
    unfold full_chunk in Hc.
    destruct (len (b :: c) <? IO_BUFFER_SIZE)%Z eqn:E2; [lia|].
    apply IH; auto. rewrite len_app. lia.
Qed.

(** X1: a message that arrives as any number of full read buffers
    followed by a shorter read (a zero-byte read at end of stream
    included) is put together in order and decoded as one, within the
    size limit; the reads after it are left for the next call. *)
Theorem read_reassembles_message (s : fd) (w : World) (pre : list bytes)
    (last : bytes) (rest : list recv_outcome) :
  recvs w = map RecvData pre ++ RecvData last :: rest ->
  Forall full_chunk pre ->
  (len last < IO_BUFFER_SIZE)%Z ->
  (len (concat pre) + len last <= MAX_REQUEST_SIZE)%Z ->
  concat pre ++ last <> [] ->
  read pickle_loads (Some s) w
  = (deserialize pickle_loads (concat pre ++ last), set_recvs rest w).
Proof.
  intros Hw Hfull Hshort Hsum Hne. unfold read. rewrite Hw.
  rewrite (@read_loop_message pre [] last rest Hfull Hshort).
  - cbn [app]. destruct (concat pre ++ last); [congruence | reflexivity].
  - change (len (@nil Byte.byte)) with 0%Z. lia.
Qed.

(** X2: when a socket error (a timeout, a reset) follows full read
    buffers, [read] answers with the error alone: the bytes already
    received are dropped, not decoded and not kept for a later call. *)
Theorem read_drops_partial_message (s : fd) (w : World) (pre : list bytes)
    (e : exn) (rest : list recv_outcome) :
  recvs w = map RecvData pre ++ RecvRaise e :: rest ->
  Forall full_chunk pre ->
  (len (concat pre) <= MAX_REQUEST_SIZE)%Z ->
  is_socket_error e = true ->
  read pickle_loads (Some s) w
  = (Ret (error_response (exn_str e)), set_recvs rest w).
Proof.
  intros Hw Hfull Hsum He. unfold read. rewrite Hw.
  rewrite (@read_loop_error pre [] e rest Hfull).
  - unfold recv_raised. rewrite He. reflexivity.
  - change (len (@nil Byte.byte)) with 0%Z. lia.
Qed.

End FramingFacts.

Lemma full_buffer_full : full_chunk full_buffer.
Proof. unfold full_chunk. rewrite len_full_buffer. lia. Qed.

(** Two full buffers and three more bytes are one message. *)
Lemma read_reassembles_message_witness :
  dice_io.read toy.loads (Some 0)
    (socket.mkWorld [] []
       (map socket.RecvData [full_buffer; full_buffer]
        ++ socket.RecvData ["+"%byte; "O"%byte; "K"%byte] :: [toy.reply "+next"])
       1 0 [])
  = (dice_io.deserialize toy.loads
       (concat [full_buffer; full_buffer] ++ ["+"%byte; "O"%byte; "K"%byte]),
     socket.set_recvs [toy.reply "+next"]
       (socket.mkWorld [] []
          (map socket.RecvData [full_buffer; full_buffer]
           ++ socket.RecvData ["+"%byte; "O"%byte; "K"%byte] :: [toy.reply "+next"])
          1 0 [])).
Proof.
  apply (@read_reassembles_message toy.loads 0 _ [full_buffer; full_buffer]
           ["+"%byte; "O"%byte; "K"%byte] [toy.reply "+next"]).
  - reflexivity.
  - repeat constructor; apply full_buffer_full.
  - unfold dice_io.IO_BUFFER_SIZE, len. cbn [length]. lia.
  - cbn [concat]. rewrite !len_app, len_full_buffer.
    unfold dice_io.IO_BUFFER_SIZE, dice_io.MAX_REQUEST_SIZE, len. cbn [length]. lia.
  - intros H. apply (f_equal (@length Byte.byte)) in H.
    rewrite length_app in H. cbn [length] in H. lia.
Defined.

(** One full buffer, then the socket times out: the buffer is lost. *)
Lemma read_drops_partial_message_witness :
  dice_io.read toy.loads (Some 0)
    (socket.mkWorld [] []
       (map socket.RecvData [full_buffer] ++ socket.RecvRaise socket.timed_out :: [])
       1 0 [])
  = (Ret (wire.error_response "timed out"),
     socket.set_recvs []
       (socket.mkWorld [] []
          (map socket.RecvData [full_buffer] ++ socket.RecvRaise socket.timed_out :: [])
          1 0 [])).
Proof.
  apply (@read_drops_partial_message toy.loads 0 _ [full_buffer]
           socket.timed_out []).
  - reflexivity.
  - repeat constructor; apply full_buffer_full.
  - cbn [concat]. rewrite app_nil_r, len_full_buffer.
    unfold dice_io.IO_BUFFER_SIZE, dice_io.MAX_REQUEST_SIZE. lia.
  - reflexivity.
Defined.

(** ** client.py: the control path *)

Section ControlPathFacts.
Import wire socket client.

Variable pickle_dumps : Command -> bytes.
Variable pickle_loads : bytes -> PyResult Response.

Local Abbreviation _fire := (client._fire pickle_dumps pickle_loads).
Local Abbreviation check_and_reconnect :=
  (client.check_and_reconnect pickle_dumps pickle_loads).
Local Abbreviation fire_rec := (client.fire_rec pickle_dumps pickle_loads).
Local Abbreviation fire := (client.fire pickle_dumps pickle_loads).
Local Abbreviation fire_string := (client.fire_string pickle_dumps pickle_loads).
Local Abbreviation __init__ := (client.__init__ pickle_dumps pickle_loads).

Lemma check_and_reconnect_noop (error : string) (st : State) :
  dead_connection error = false ->
  check_and_reconnect error st = (Ret false, st).
Proof.
  intros H. unfold client.check_and_reconnect.
  change (str_in "EOF" error || str_in "Broken pipe" error)
    with (dead_connection error).
  rewrite H. reflexivity.
Qed.

Lemma set_conn_set_conn (a b : option fd) (c : Client) :
  set_conn a (set_conn b c) = set_conn a c.
Proof. reflexivity. Qed.

Lemma control_path_only_refl (c : Command) (s : State) :
  control_path_only pickle_dumps c s s.
Proof.
  unfold control_path_only. splits.
  - destruct (self s); reflexivity.
  - auto.
  - exists []. split; [now rewrite app_nil_r|]. intros ? ? [].
Qed.

Lemma control_path_only_trans (c : Command) (s1 s2 s3 : State) :
  control_path_only pickle_dumps c s1 s2 ->
  control_path_only pickle_dumps c s2 s3 ->
  control_path_only pickle_dumps c s1 s3.
Proof.
  intros (Hs1 & Hc1 & new1 & Ht1 & Hd1) (Hs2 & Hc2 & new2 & Ht2 & Hd2).
  assert (Hid : id (self s2) = id (self s1)) by (rewrite Hs1; reflexivity).
  unfold control_path_only. splits.
  - rewrite Hs2, Hs1 at 1. apply set_conn_set_conn.
  - auto.
  - exists (new1 ++ new2). split.
    + rewrite Ht2, Ht1, app_assoc. reflexivity.
    + intros s d Hin. apply in_app_or in Hin. destruct Hin as [Hin|Hin].
      * eapply Hd1; exact Hin.
      * rewrite <- Hid. eapply Hd2; exact Hin.
Qed.

Lemma _fire_control_path (c : Command) (cn : option fd) :
  respects (control_path_only pickle_dumps c) (_fire c cn).
Proof.
  intros s r s' H.
  destruct (_fire_spec pickle_dumps pickle_loads c cn s)
    as (r0 & st' & E & Hself & _ & _ & _ & _ & Ht & _).
  rewrite E in H. inversion H; subst r0 st'. clear H.
  unfold control_path_only. splits.
  - rewrite Hself. destruct (self s); reflexivity.
  - rewrite Hself. auto.
  - eexists. split; [exact Ht|]. intros s0 d Hin.
    destruct cn; [|destruct Hin]. destruct Hin as [Hin|[]].
    inversion Hin. left. reflexivity.
Qed.

Lemma check_and_reconnect_control_path (c : Command) (error : string) :
  respects (control_path_only pickle_dumps c) (check_and_reconnect error).
Proof.
  intros s r s' H.
  pose proof (@check_and_reconnect_respects pickle_dumps pickle_loads error s r s' H)
    as (_ & _ & new & Ht & Hd).
  destruct (check_and_reconnect_spec pickle_dumps pickle_loads error s)
    as (ok & st' & E & Hself & _ & _ & _ & _ & Hshape).
  rewrite E in H. inversion H; subst r st'. clear H.
  unfold control_path_only. splits.
  - exact Hself.
  - intros Hc. destruct (dead_connection error).
    + destruct Hshape as [-> _]. discriminate.
    + destruct Hshape as [-> _]. exact Hc.
  - exists new. split; [exact Ht|]. intros s0 d Hin. right. eapply Hd; exact Hin.
Qed.

Lemma fire_rec_control_path (n : nat) (c : Command) :
  respects (control_path_only pickle_dumps c) (fire_rec n c).
Proof.
  pose proof (control_path_only_refl c) as Hr.
  pose proof (@control_path_only_trans c) as Ht.
  induction n as [|n IH]; cbn [client.fire_rec].
  - apply respects_raise; auto.
  - apply respects_bind; auto using respects_attr. intros cn.
    apply respects_bind; auto using _fire_control_path. intros result.
    destruct (truthy (err result)); auto using respects_ret.
    apply respects_bind; auto using check_and_reconnect_control_path.
    intros again. destruct again; auto using respects_ret.
Qed.

Lemma fire_control_path (c : Command) :
  respects (control_path_only pickle_dumps c) (fire c).
Proof. intros s r s' H. eapply fire_rec_control_path. exact H. Qed.

(** The first thing a call of [fire] does is send the command on the
    control connection it finds. *)
Lemma fire_sends_first (c : Command) (st : State) (s : fd) :
  conn (self st) = Some s ->
  exists more,
    trace (world (snd (fire c st)))
    = trace (world st) ++ EvSendall s (pickle_dumps c) :: more.
Proof.
  intros Hconn. rewrite fire_unfold.
  destruct (_fire_spec pickle_dumps pickle_loads c (conn (self st)) st)
    as (r & st1 & E & _ & _ & _ & _ & _ & Ht & _).
  rewrite E, Hconn in *. destruct r as [result|e].
  2: { exists []. exact Ht. }
  destruct (truthy (err result)).
  2: { exists []. exact Ht. }
  destruct (check_and_reconnect_spec pickle_dumps pickle_loads (err result) st1)
    as (ok & st2 & E2 & _).
  pose proof (@check_and_reconnect_respects pickle_dumps pickle_loads _ _ _ _ E2)
    as (_ & _ & new2 & Ht2 & _).
  rewrite E2. destruct ok.
  - destruct (fire c st2) as [r3 st3] eqn:E3.
    pose proof (@fire_control_path c st2 r3 st3 E3) as (_ & _ & new3 & Ht3 & _).
    cbn [snd]. exists (new2 ++ new3).
    rewrite Ht3, Ht2, Ht. rewrite <- !app_assoc. reflexivity.
  - cbn [snd]. exists new2. rewrite Ht2, Ht. rewrite <- !app_assoc. reflexivity.
Qed.

(** X3: a cycle that goes through is one send and one decoded reply:
    when the send succeeds and the reply arrives as one short read that
    unpickles to a Response without error, [fire] returns that Response,
    having sent the command once on the control socket and opened or
    closed nothing. *)
Theorem fire_healthy_cycle (c : Command) (st : State) (s : fd)
    (ss : list (option exn)) (data : bytes) (rs : list recv_outcome)
    (r : Response) :
  conn (self st) = Some s ->
  sends (world st) = None :: ss ->
  recvs (world st) = RecvData data :: rs ->
  short_message data ->
  pickle_loads data = Ret r ->
  err r = EmptyString ->
  fire c st
  = (Ret r,
     mkState (self st)
       (set_recvs rs
          (set_sends ss (log (EvSendall s (pickle_dumps c)) (world st))))).
Proof.
  intros Hconn Hs Hr [Hne Hshort] Hload Herr.
  rewrite fire_unfold, Hconn.
  unfold client._fire, bind, io, dice_io.write, dice_io.serialize, try_except,
    bind, sendall, ret.
  cbn [sends log]. rewrite Hs. cbn [negb self world].
  unfold dice_io.read. cbn [recvs set_sends log]. rewrite Hr.
  pose proof (@read_loop_message [] [] data rs) as Hloop.
  cbn [map app concat] in Hloop. rewrite Hloop; auto.
  - destruct data as [|b data]; [congruence|].
    unfold dice_io.deserialize. rewrite Hload, Herr. reflexivity.
  - change (len (@nil Byte.byte)) with 0%Z. cbn [concat].
    change (len (@nil Byte.byte)) with 0%Z.
    unfold dice_io.IO_BUFFER_SIZE, dice_io.MAX_REQUEST_SIZE in *. lia.
Qed.

(** X4: [fire] reconnects on the wording of the error alone.  A send
    that fails, a broken pipe included, is answered with [Failed to write
    command to socket], and a connection the peer has closed (a read of
    zero bytes) with [Empty response or connection closed]; neither
    message names EOF or a broken pipe, so in both cases [fire] returns
    the error at once: nothing is closed, dialed or retried. *)
Theorem fire_no_reconnect_on_failed_send_or_closed_peer
    (c : Command) (st : State) (s : fd) :
  conn (self st) = Some s ->
  (forall (e : exn) (ss : list (option exn)),
     sends (world st) = Some e :: ss ->
     fire c st
     = (Ret (error_response "Failed to write command to socket"),
        mkState (self st)
          (set_sends ss (log (EvSendall s (pickle_dumps c)) (world st))))) /\
  (forall (ss : list (option exn)) (rs : list recv_outcome),
     sends (world st) = None :: ss ->
     recvs (world st) = RecvData [] :: rs ->
     fire c st
     = (Ret (error_response "Empty response or connection closed"),
        mkState (self st)
          (set_recvs rs
             (set_sends ss (log (EvSendall s (pickle_dumps c)) (world st)))))).
Proof.
  intros Hconn. split.
  - intros e ss Hs. rewrite fire_unfold, Hconn.
    unfold client._fire, bind, io, dice_io.write, dice_io.serialize, try_except,
      bind, sendall, ret, any_Exception.
    cbn [sends log]. rewrite Hs. cbn [negb self world truthy err error_response].
    rewrite check_and_reconnect_noop; reflexivity.
  - intros ss rs Hs Hr. rewrite fire_unfold, Hconn.
    unfold client._fire, bind, io, dice_io.write, dice_io.serialize, try_except,
      bind, sendall, ret.
    cbn [sends log]. rewrite Hs. cbn [negb self world].
    unfold dice_io.read. cbn [recvs set_sends log]. rewrite Hr.
    cbn [dice_io.read_loop truthy err error_response].
    rewrite check_and_reconnect_noop; reflexivity.
Qed.

(** X5: whatever happens in a call of [fire], it changes no attribute of
    the client but [conn] (the identity token, host, port and everything
    of the subscription stay), it never leaves a client that had a
    control connection without one, and all it sends is the command
    itself or the handshake tagged [command] with the client's token. *)
Theorem fire_changes_only_conn (c : Command) (st : State) :
  let st' := snd (fire c st) in
  self st' = set_conn (conn (self st')) (self st) /\
  (conn (self st) <> None -> conn (self st') <> None) /\
  exists new,
    trace (world st') = trace (world st) ++ new /\
    forall s d,
      In (EvSendall s d) new ->
      d = pickle_dumps c \/
      d = pickle_dumps (handshake (id (self st)) "command").
Proof.
  intros st'. subst st'. destruct (fire c st) as [r st'] eqn:E.
  exact (@fire_control_path c st r st' E).
Qed.

(** *** Construction *)

Lemma last_cons_default (A : Type) (x u : A) (xs : list A) :
  last (x :: xs) u = last xs x.
Proof.
  revert x u. induction xs as [|y ys IH]; intros x u; [reflexivity|].
  change (last (x :: y :: ys) u) with (last (y :: ys) u).
  rewrite (IH y u), (IH y x). reflexivity.
Qed.

(** Of several [WithID] options the last one decides; with none the
    generated token stays. *)
Lemma fold_WithID (ids : list string) :
  forall (h : string) (p : Z) (u : string) (a b : option fd) (e : option nat)
         (q : option (nat * list Response)),
    fold_left (fun c o => apply o c) (map WithID ids) (mkClient h p u a b e q)
    = mkClient h p (last ids u) a b e q.
Proof.
  induction ids as [|x ids IH]; intros h p u a b e q; [reflexivity|].
  cbn [map fold_left].
  change (apply (WithID x) (mkClient h p u a b e q)) with (mkClient h p x a b e q).
  rewrite IH, last_cons_default. reflexivity.
Qed.

Lemma __init___unfold (h : string) (p : Z) (u : string)
    (options : list ClientOption) (st : State) :
  __init__ h p u options st =
  match client._connect
          (mkState (fold_left (fun c o => apply o c) options
                              (mkClient h p u None None None None))
                   (world st)) with
  | (Ret _, st1) =>
      match fire (handshake (id (self st1)) "command") st1 with
      | (Ret resp, st2) =>
          if truthy (err resp)
          then (Raise (Exn ConnectionError
                         ("Could not complete the handshake: " ++ err resp)),
                st2)
          else (Ret tt, st2)
      | (Raise e, st2) => (Raise e, st2)
      end
  | (Raise e, st1) => (Raise e, st1)
  end.
Proof.
  unfold client.__init__, bind, assign, modify, attr, gets. cbn [self world].
  destruct (client._connect _) as [[[]|e] st1]; [|reflexivity].
  destruct (fire _ st1) as [[resp|e] st2]; [|reflexivity].
  destruct (truthy (err resp)); reflexivity.
Qed.

(** X6: the constructor starts by dialing [host:port] on a new socket
    and, if the dial succeeds, the first thing it sends is the handshake
    [HANDSHAKE token command] on that socket, where the token is the one
    given by the last [WithID] option, or the generated one when there is
    none. *)
Theorem construction_sends_handshake_first (h : string) (p : Z) (uuid4 : string)
    (ids : list string) (st : State) (cs : list (option exn)) :
  connects (world st) = None :: cs ->
  exists more,
    trace (world (snd (__init__ h p uuid4 (map WithID ids) st)))
    = trace (world st)
      ++ EvConnect (next_fd (world st)) h p
         :: EvSendall (next_fd (world st))
              (pickle_dumps (handshake (last ids uuid4) "command"))
         :: more.
Proof.
  intros Hc. rewrite __init___unfold, fold_WithID.
  set (st0 := mkState (mkClient h p (last ids uuid4) None None None None) (world st)).
  destruct (_connect_spec st0) as (r1 & st1 & E1 & Hs1 & _ & _ & Ht1 & _ & _).
  assert (Hr1 : r1 = Ret tt).
  { revert E1. subst st0. unfold client._connect, try_except, bind, io, socket,
      assign, modify, attr, gets, connect. cbn. rewrite Hc. cbn. congruence. }
  subst r1. rewrite E1.
  assert (Hconn1 : conn (self st1) = Some (next_fd (world st))) by (rewrite Hs1; reflexivity).
  assert (Hid1 : id (self st1) = last ids uuid4) by (rewrite Hs1; reflexivity).
  destruct (@fire_sends_first (handshake (id (self st1)) "command") st1 _ Hconn1)
    as [more Hmore].
  rewrite Hid1 in *. subst st0. cbn [self world host port] in Ht1.
  exists more.
  destruct (fire (handshake (last ids uuid4) "command") st1) as [[resp|e] st2];
    cbn [snd] in Hmore; [destruct (truthy (err resp))|]; cbn [snd];
    rewrite Hmore, Ht1, <- app_assoc; reflexivity.
Qed.

(** X7: when the dial is refused or fails with any other socket error,
    the constructor raises [ConnectionError] with the message [Failed to
    connect to host:port: cause]; one connect was attempted and nothing
    was sent. *)
Theorem construction_dial_failure (h : string) (p : Z) (uuid4 : string)
    (ids : list string) (st : State) (e : exn) (cs : list (option exn)) :
  connects (world st) = Some e :: cs ->
  is_socket_error e = true ->
  __init__ h p uuid4 (map WithID ids) st
  = (Raise (Exn ConnectionError
              ("Failed to connect to " ++ h ++ ":" ++ str_of_int p ++ ": "
               ++ exn_str e)),
     mkState (mkClient h p (last ids uuid4) (Some (next_fd (world st))) None None None)
       (mkWorld cs (sends (world st)) (recvs (world st)) (S (next_fd (world st)))
          (next_obj (world st))
          (trace (world st) ++ [EvConnect (next_fd (world st)) h p]))).
Proof.
  intros Hc He. rewrite __init___unfold, fold_WithID.
  unfold client._connect, try_except, bind, io, socket, assign, modify, attr,
    gets, connect, raise. cbn. rewrite Hc. cbn. rewrite He. reflexivity.
Qed.

(** A constructor that returns has changed nothing but [conn] in the
    object its options made. *)
Lemma __init___returns (h : string) (p : Z) (u : string)
    (options : list ClientOption) (st st' : State) :
  __init__ h p u options st = (Ret tt, st') ->
  exists s,
    self st'
    = set_conn (Some s)
        (fold_left (fun c o => apply o c) options
                   (mkClient h p u None None None None)).
Proof.
  rewrite __init___unfold.
  set (st0 := mkState _ (world st)).
  destruct (_connect_spec st0) as (r1 & st1 & E1 & Hs1 & _).
  rewrite E1. destruct r1 as [[]|e1]; [|discriminate].
  destruct (fire (handshake (id (self st1)) "command") st1) as [[resp|e] st2] eqn:E2;
    [|discriminate].
  destruct (truthy (err resp)); [discriminate|].
  intros H. inversion H; subst st'. clear H.
  pose proof (@fire_control_path _ _ _ _ E2) as (Hs2 & Hc2 & _).
  destruct (conn (self st2)) as [s|] eqn:Ec.
  - exists s. rewrite Hs2, Hs1. subst st0. reflexivity.
  - exfalso. apply Hc2; [rewrite Hs1; discriminate | reflexivity].
Qed.

(** X8: a constructor that returns leaves a client with a control
    connection, the host and port it was given, the token of the last
    [WithID] option (the generated one without any), and no
    subscription: no watch connection, no event, no queue. *)
Theorem constructed_client_attributes (h : string) (p : Z) (uuid4 : string)
    (ids : list string) (st st' : State) :
  __init__ h p uuid4 (map WithID ids) st = (Ret tt, st') ->
  exists s,
    self st' = mkClient h p (last ids uuid4) (Some s) None None None.
Proof.
  intros H. apply __init___returns in H. destruct H as [s H].
  exists s. rewrite H, fold_WithID. reflexivity.
Qed.

(** X9: the Command [fire_string] builds never has an empty name, and
    neither its name nor any argument contains whitespace: quoting does
    not group words, so an argument with a space in it cannot be sent
    through [fire_string]. *)
Theorem fire_string_sends_tokens (text : string) (st : State) :
  split text <> [] ->
  exists (name : string) (arguments : list string),
    fire_string text st = fire (mkCommand name arguments) st /\
    split text = name :: arguments /\
    token name /\ Forall token arguments.
Proof.
  intros Hne. pose proof (split_tokens text) as Htok.
  destruct (split text) as [|name arguments] eqn:E; [congruence|].
  inversion Htok; subst. exists name, arguments. splits; auto.
  unfold client.fire_string. rewrite split_strip, E.
  cbn [nth_error length skipn]. destruct arguments; reflexivity.
Qed.

End ControlPathFacts.

(** ** client.py: the subscription, [close] and [get_or_create_client] *)

Section SubscriptionFacts.
Import wire socket client lifecycle.

Variable pickle_dumps : Command -> bytes.
Variable pickle_loads : bytes -> PyResult Response.

Local Abbreviation _fire := (client._fire pickle_dumps pickle_loads).
Local Abbreviation Client_watch_ch := (client.Client_watch_ch pickle_dumps pickle_loads).
Local Abbreviation _watch := (client._watch pickle_dumps pickle_loads).
Local Abbreviation Client_new := (lifecycle.Client_new pickle_dumps pickle_loads).
Local Abbreviation get_or_create_client :=
  (lifecycle.get_or_create_client pickle_dumps pickle_loads).

(** X10: the watch loop queues one Response per message, in the order
    the messages arrive, undecodable ones as error Responses; it reads
    one message per turn, touches no socket but by reading, and after as
    many turns as there were messages it has left the rest of the stream
    unread. *)
Theorem watch_queue_keeps_order (msgs : list bytes) :
  forall (st : State) (ev : nat) (wc : fd) (q : nat) (items : list Response)
         (rest : list recv_outcome),
    watch_ch (self st) = Some ev ->
    watch_conn (self st) = Some wc ->
    watch_queue (self st) = Some (q, items) ->
    recvs (world st) = map RecvData msgs ++ rest ->
    Forall short_message msgs ->
    _watch (length msgs) st
    = (Ret StopSet,
       mkState
         (set_watch_queue (Some (q, items ++ map (decoded pickle_loads) msgs))
                          (self st))
         (set_recvs rest (world st))).
Proof.
  induction msgs as [|d msgs IH]; intros st ev wc q items rest Hch Hwc Hq Hr Hshort;
    cbn [length client._watch]; unfold bind at 1, attr, gets; rewrite Hch.
  - cbn [map app] in *. rewrite app_nil_r. unfold ret.
    destruct st as [[h p i cn wcn wch wq] [cs ss rs nfd nobj tr]].
    cbn [self world watch_queue recvs] in *. subst wq rs. reflexivity.
  - inversion Hshort as [|? ? [Hne Hlen] Hmsgs]; subst.
    unfold bind, client.watch_body, try_except, bind, attr, gets, io.
    rewrite Hwc. unfold dice_io.read. rewrite Hr. cbn [map app].
    pose proof (@read_loop_message [] [] d (map RecvData msgs ++ rest)) as Hloop.
    cbn [map app concat] in Hloop. rewrite Hloop; auto.
    2: { change (len (@nil Byte.byte)) with 0%Z.
         unfold dice_io.IO_BUFFER_SIZE, dice_io.MAX_REQUEST_SIZE in *. lia. }
    destruct d as [|b d]; [congruence|].
    assert (Hdec : dice_io.deserialize pickle_loads (b :: d)
                   = Ret (decoded pickle_loads (b :: d))).
    { unfold decoded.
      destruct (deserialize_returns pickle_loads (b :: d)) as [r ->]. reflexivity. }
    rewrite Hdec. cbn [self world].
    unfold queue_append, bind, attr, gets. cbn [self]. rewrite Hq.
    unfold assign, modify, ret. cbn [self world].
    rewrite (IH _ ev wc q (items ++ [decoded pickle_loads (b :: d)]) rest);
      try reflexivity; auto.
    cbn [map]. rewrite <- app_assoc. reflexivity.
Qed.

(** What the method does when the subscription is not open yet. *)
Lemma Client_watch_ch_spec (st : State) :
  watch_ch (self st) = None ->
  exists r st',
    Client_watch_ch st = (r, st') /\
    exists hs,
      trace (world st')
      = trace (world st)
        ++ EvConnect (next_fd (world st)) (host (self st)) (port (self st)) :: hs /\
      match r with
      | Ret hd =>
          hd = EventAndQueue (next_obj (world st)) (S (next_obj (world st))) /\
          self st'
          = set_watch_queue (Some (S (next_obj (world st)), []))
              (set_watch_ch (Some (next_obj (world st)))
                 (set_watch_conn (Some (next_fd (world st))) (self st))) /\
          hs = [EvSendall (next_fd (world st))
                  (pickle_dumps (handshake (id (self st)) "watch"));
                EvThreadStart]
      | Raise e =>
          (exists cause,
             e = Exn ConnectionError
                   ("Failed to setup watch connection: " ++ cause)) /\
          self st'
          = set_watch_queue (Some (S (next_obj (world st)), []))
              (set_watch_ch None
                 (set_watch_conn (Some (next_fd (world st))) (self st))) /\
          (hs = [] \/
           hs = [EvSendall (next_fd (world st))
                   (pickle_dumps (handshake (id (self st)) "watch"))])
      end.
Proof.
  destruct st as [[h p i cn wcn wch wq] [cs ss rs nfd nobj tr]].
  cbn [self world watch_ch]. intros ->.
  unfold client.Client_watch_ch, bind, attr, gets, io, new_object, assign,
    modify, try_except, bind, attr, gets, io, socket, connect, assign, modify,
    raise, any_Exception.
  cbn [self world watch_ch watch_conn watch_queue host port id conn
       set_watch_ch set_watch_conn set_watch_queue
       connects sends recvs next_fd next_obj trace log set_connects].
  destruct cs as [|[e|] cs].
  - do 2 eexists. split; [reflexivity|]. exists []. cbn [trace world self].
    splits; eauto.
  - do 2 eexists. split; [reflexivity|]. exists []. cbn [trace world self].
    splits; eauto.
  - match goal with
    | |- context [client._fire _ _ ?c ?k ?s] =>
        destruct (_fire_spec pickle_dumps pickle_loads c k s)
          as (r2 & st2 & E2 & Hs2 & _ & _ & _ & _ & Ht2 & _); rewrite E2
    end.
    cbn [self world trace log set_connects connects sends recvs next_fd next_obj] in Hs2, Ht2.
    destruct r2 as [resp|e2].
    + destruct (truthy (err resp)).
      * do 2 eexists. split; [reflexivity|]. eexists. cbn [trace world self].
        rewrite Ht2, Hs2, <- app_assoc. cbn [app]. splits; eauto.
      * unfold ret. cbn [self world watch_ch watch_queue log trace].
        rewrite Hs2. cbn [watch_ch watch_queue].
        do 2 eexists. split; [reflexivity|]. eexists. cbn [trace world self log].
        rewrite Ht2, <- !app_assoc. cbn [app]. splits; eauto.
    + do 2 eexists. split; [reflexivity|]. eexists. cbn [trace world self].
      rewrite Ht2, Hs2, <- app_assoc. cbn [app]. splits; eauto.
Qed.


(** X11: opening the subscription allocates the event and the queue,
    dials one new socket to the client's host and port, sends on it the
    handshake with the client's token and the tag [watch], and starts
    one thread, in that order; the control connection and the token are
    untouched, and the queue starts empty. *)
Theorem open_dials_handshakes_and_starts_thread (st st' : State) (hd : handles) :
  watch_ch (self st) = None ->
  Client_watch_ch st = (Ret hd, st') ->
  hd = EventAndQueue (next_obj (world st)) (S (next_obj (world st))) /\
  self st'
  = set_watch_queue (Some (S (next_obj (world st)), []))
      (set_watch_ch (Some (next_obj (world st)))
         (set_watch_conn (Some (next_fd (world st))) (self st))) /\
  trace (world st')
  = trace (world st)
    ++ [EvConnect (next_fd (world st)) (host (self st)) (port (self st));
        EvSendall (next_fd (world st))
          (pickle_dumps (handshake (id (self st)) "watch"));
        EvThreadStart].
Proof.
  intros Hch H.
  destruct (Client_watch_ch_spec st Hch) as (r & st1 & E & hs & Ht & Hr).
  rewrite E in H. inversion H; subst r st1. clear H.
  destruct Hr as (Hhd & Hself & Hhs). subst hs. auto.
Qed.

(** X12: an opening that fails (the dial fails, or the handshake is
    answered with an error or not at all) raises [ConnectionError] with
    the message [Failed to setup watch connection: cause].  The event
    attribute is back to [None], so a later call tries again; no thread
    was started; and the socket that was opened stays in [watch_conn]
    and is not closed. *)
Theorem open_failure_can_be_retried (st st' : State) (e : exn) :
  watch_ch (self st) = None ->
  Client_watch_ch st = (Raise e, st') ->
  (exists cause,
     e = Exn ConnectionError ("Failed to setup watch connection: " ++ cause)) /\
  watch_ch (self st') = None /\
  watch_conn (self st') = Some (next_fd (world st)) /\
  exists hs,
    trace (world st')
    = trace (world st)
      ++ EvConnect (next_fd (world st)) (host (self st)) (port (self st)) :: hs /\
    (hs = [] \/
     hs = [EvSendall (next_fd (world st))
             (pickle_dumps (handshake (id (self st)) "watch"))]).
Proof.
  intros Hch H.
  destruct (Client_watch_ch_spec st Hch) as (r & st1 & E & hs & Ht & Hr).
  rewrite E in H. inversion H; subst r st1. clear H.
  destruct Hr as (Hcause & Hself & Hhs).
  splits; auto; try (rewrite Hself; reflexivity). eauto.
Qed.

(** What [close] does, spelled out. *)
Lemma close_eq (p : Process) :
  close p
  = (Ret tt,
     mkProcess
       (mkState (self (state p))
          (let w1 := match conn (self (state p)) with
                     | Some s => log (EvClose s) (world (state p))
                     | None => world (state p)
                     end in
           match watch_conn (self (state p)) with
           | Some s => log (EvClose s) w1
           | None => w1
           end))
       (match watch_ch (self (state p)) with
        | Some ev => if Event_is_set ev p then events_set p
                     else ev :: events_set p
        | None => events_set p
        end)).
Proof.
  destruct p as [[c w] evs].
  unfold close, bind, within, attr, gets, Event_set, modify, io, socket.close, ret.
  cbn [state self world events_set].
  destruct (watch_ch c) as [ev|]; [destruct (Event_is_set ev _)|];
    cbn [state self world events_set];
    destruct (conn c); cbn [state self world events_set];
    destruct (watch_conn c); reflexivity.
Qed.

(** X13: [close] sets the stop event of an open subscription and
    closes the control socket and then the watch socket, each if there
    is one.  It resets no attribute: [conn], [watch_conn] and
    [watch_ch] still hold the closed sockets and the event.  A second
    [close] changes neither the attributes nor the events set; it
    closes the same sockets again. *)
Theorem close_keeps_attributes (p : Process) :
  let p' := snd (close p) in
  let p'' := snd (close p') in
  fst (close p) = Ret tt /\
  self (state p') = self (state p) /\
  trace (world (state p'))
  = trace (world (state p))
    ++ match conn (self (state p)) with Some s => [EvClose s] | None => [] end
    ++ match watch_conn (self (state p)) with Some s => [EvClose s] | None => [] end /\
  (forall ev, watch_ch (self (state p)) = Some ev -> Event_is_set ev p' = true) /\
  self (state p'') = self (state p') /\
  events_set p'' = events_set p' /\
  trace (world (state p''))
  = trace (world (state p'))
    ++ match conn (self (state p)) with Some s => [EvClose s] | None => [] end
    ++ match watch_conn (self (state p)) with Some s => [EvClose s] | None => [] end.
Proof.
  intros p' p''. subst p''. subst p'. rewrite !close_eq. cbn [fst snd state self events_set world].
  destruct p as [[c w] evs]. cbn [state self world events_set].
  splits; try reflexivity.
  - destruct (conn c), (watch_conn c); cbn [log trace app];
      rewrite <- ?app_assoc, ?app_nil_r; reflexivity.
  - intros ev ->. unfold Event_is_set at 1. cbn [events_set].
    destruct (Event_is_set ev _) eqn:E; [exact E|].
    cbn [existsb]. now rewrite Nat.eqb_refl.
  - destruct (watch_ch c) as [ev|]; [|reflexivity].
    destruct (Event_is_set ev {| state := {| self := c; world := w |}; events_set := evs |}) eqn:E.
    + unfold Event_is_set in *. cbn [events_set] in *. rewrite E. reflexivity.
    + unfold Event_is_set. cbn [events_set existsb]. now rewrite Nat.eqb_refl.
  - destruct (conn c), (watch_conn c); cbn [log trace app];
      rewrite <- ?app_assoc, ?app_nil_r; reflexivity.
Qed.

(** X14: a closed client cannot reopen its subscription: [close]
    leaves the event in [watch_ch], so the method [watch_ch] takes its
    early return and hands back that event, already set, without
    dialing. *)
Theorem no_reopen_after_close (p : Process) (ev : nat) :
  watch_ch (self (state p)) = Some ev ->
  let p' := snd (close p) in
  within Client_watch_ch p' = (Ret (Event ev), p') /\
  Event_is_set ev p' = true.
Proof.
  intros Hch p'. subst p'. rewrite close_eq. cbn [snd]. split.
  - unfold within, client.Client_watch_ch, bind, attr, gets.
    cbn [state self events_set]. rewrite Hch. reflexivity.
  - rewrite Hch. unfold Event_is_set at 1. cbn [events_set].
    destruct (Event_is_set ev p) eqn:E; [exact E|].
    cbn [existsb]. now rewrite Nat.eqb_refl.
Qed.

(** X15: given a client, [get_or_create_client] never hands it back.
    It constructs a new client for the old one's host and port (its own
    host and port arguments are not used) with a newly generated token
    and no subscription, and only then closes the old control socket;
    the old watch socket is not closed.  If the construction fails,
    nothing of the old client is closed and [ConnectionError] is raised
    with the message [Failed to create new client: cause]. *)
Theorem get_or_create_client_always_creates (c : Client) (h : string) (p : Z)
    (uuid4 : string) (w : World) :
  match Client_new (host c) (port c) uuid4 [] w with
  | (Ret nc, w1) =>
      get_or_create_client (Some c) h p uuid4 w
      = (Ret nc, match conn c with
                 | Some s => log (EvClose s) w1
                 | None => w1
                 end) /\
      exists s, nc = mkClient (host c) (port c) uuid4 (Some s) None None None
  | (Raise e, w1) =>
      get_or_create_client (Some c) h p uuid4 w
      = (Raise (Exn ConnectionError
                  ("Failed to create new client: " ++ exn_str e)),
         w1)
  end.
Proof.
  unfold lifecycle.get_or_create_client, try_except, bind.
  destruct (Client_new (host c) (port c) uuid4 [] w) as [[nc|e] w1] eqn:E.
  - split.
    + destruct (conn c); reflexivity.
    + unfold lifecycle.Client_new in E.
      destruct (client.__init__ _ _ _ _ _ _ _) as [[[]|e] st'] eqn:E1;
        inversion E; subst.
      apply __init___returns in E1. destruct E1 as [s ->]. exists s. reflexivity.
  - reflexivity.
Qed.

End SubscriptionFacts.

(** ** The further properties on concrete sessions *)

Lemma fire_healthy_cycle_witness :
  client.fire toy.dumps toy.loads PING healthy_session
  = (Ret PONG,
     client.mkState connected_client
       (socket.set_recvs [toy.reply "+OK"]
          (socket.set_sends [None]
             (socket.log (socket.EvSendall 0 (toy.dumps PING))
                (client.world healthy_session))))).
Proof.
  apply (@fire_healthy_cycle toy.dumps toy.loads PING healthy_session 0 [None]
           (list_byte_of_string "+PONG") [toy.reply "+OK"] PONG);
    try reflexivity.
  split; [discriminate | vm_compute; reflexivity].
Defined.

(** A broken pipe on the send, and a connection closed by the peer:
    the server would accept a reconnect, yet none is attempted. *)
Lemma fire_no_reconnect_on_failed_send_or_closed_peer_witness :
  client.fire toy.dumps toy.loads PING broken_pipe_session
  = (Ret (wire.error_response "Failed to write command to socket"),
     client.mkState connected_client
       (socket.mkWorld [None] [None] [toy.reply "+OK"] 1 0
          [socket.EvSendall 0 (toy.dumps PING)])) /\
  client.fire toy.dumps toy.loads PING closed_by_peer_session
  = (Ret (wire.error_response "Empty response or connection closed"),
     client.mkState connected_client
       (socket.mkWorld [None] [None] [toy.reply "+OK"] 1 0
          [socket.EvSendall 0 (toy.dumps PING)])).
Proof.
  split.
  - apply (proj1 (@fire_no_reconnect_on_failed_send_or_closed_peer
                    toy.dumps toy.loads PING broken_pipe_session 0 eq_refl)
             socket.broken_pipe [None]).
    reflexivity.
  - apply (proj2 (@fire_no_reconnect_on_failed_send_or_closed_peer
                    toy.dumps toy.loads PING closed_by_peer_session 0 eq_refl)
             [None] [toy.reply "+OK"]); reflexivity.
Defined.

(** Two [WithID] options: the handshake carries the second token. *)
Lemma construction_sends_handshake_first_witness :
  exists more,
    socket.trace (client.world (snd
      (client.__init__ toy.dumps toy.loads "localhost" 7379 "6f1e"
         (map client.WithID ["first"; "second"]) accepting_server)))
    = [] ++ socket.EvConnect 0 "localhost" 7379
         :: socket.EvSendall 0
              (toy.dumps (client.handshake "second" "command"))
         :: more.
Proof.
  apply (@construction_sends_handshake_first toy.dumps toy.loads
           "localhost" 7379%Z "6f1e" ["first"; "second"] accepting_server []).
  reflexivity.
Defined.

Lemma construction_dial_failure_witness :
  client.__init__ toy.dumps toy.loads "localhost" 7379 "6f1e"
    (map client.WithID []) unreachable_server
  = (Raise (Exn ConnectionError
              "Failed to connect to localhost:7379: [Errno 111] Connection refused"),
     client.mkState
       (client.mkClient "localhost" 7379 "6f1e" (Some 0) None None None)
       (socket.mkWorld [] [] [] 1 0 [socket.EvConnect 0 "localhost" 7379])).
Proof.
  apply (@construction_dial_failure toy.dumps toy.loads "localhost" 7379%Z "6f1e"
           [] unreachable_server socket.refused []); reflexivity.
Defined.

Lemma constructed_client_attributes_witness :
  exists s,
    client.self (snd
      (client.__init__ toy.dumps toy.loads "localhost" 7379 "6f1e"
         (map client.WithID ["mine"]) accepting_server))
    = client.mkClient "localhost" 7379 "mine" (Some s) None None None.
Proof.
  apply (@constructed_client_attributes toy.dumps toy.loads "localhost" 7379%Z
           "6f1e" ["mine"] accepting_server).
  reflexivity.
Defined.

(** Quotes do not group: the quoted words are two arguments. *)
Example split_quoted :
  split "SET k 'hello world'" = ["SET"; "k"; "'hello"; "world'"].
Proof. reflexivity. Qed.

Lemma fire_string_sends_tokens_witness :
  exists (name : string) (arguments : list string),
    client.fire_string toy.dumps toy.loads "SET k 'hello world'" healthy_session
    = client.fire toy.dumps toy.loads (wire.mkCommand name arguments)
        healthy_session /\
    split "SET k 'hello world'" = name :: arguments /\
    token name /\ Forall token arguments.
Proof.
  apply (@fire_string_sends_tokens toy.dumps toy.loads "SET k 'hello world'"
           healthy_session).
  discriminate.
Defined.

(** Three events, the second undecodable: three entries in order, the
    fourth event still unread. *)
Lemma watch_queue_keeps_order_witness :
  client._watch toy.dumps toy.loads (length three_events) watch_stream_session
  = (Ret client.StopSet,
     client.mkState
       (client.set_watch_queue
          (Some (1, [] ++ map (decoded toy.loads) three_events))
          watching_client)
       (socket.set_recvs [toy.reply "+later"]
          (client.world watch_stream_session))).
Proof.
  apply (@watch_queue_keeps_order toy.dumps toy.loads three_events
           watch_stream_session 0 1 1 [] [toy.reply "+later"]);
    try reflexivity.
  repeat constructor; try discriminate; vm_compute; reflexivity.
Defined.

Example three_events_decoded :
  map (decoded toy.loads) three_events
  = [wire.mkResponse "" (Some wire.STR) (wire.PyStr "one") None None None;
     wire.error_response "Failed to deserialize response: invalid load key";
     wire.mkResponse "" (Some wire.STR) (wire.PyStr "three") None None None].
Proof. reflexivity. Qed.

Lemma open_dials_handshakes_and_starts_thread_witness :
  client.EventAndQueue 0 1 = client.EventAndQueue 0 1 /\
  client.self opened_session
  = client.set_watch_queue (Some (1, []))
      (client.set_watch_ch (Some 0)
         (client.set_watch_conn (Some 1) connected_client)) /\
  socket.trace (client.world opened_session)
  = [] ++ [socket.EvConnect 1 "localhost" 7379;
           socket.EvSendall 1 (toy.dumps (client.handshake "6f1e" "watch"));
           socket.EvThreadStart].
Proof.
  apply (@open_dials_handshakes_and_starts_thread toy.dumps toy.loads
           watch_ready_session opened_session (client.EventAndQueue 0 1));
    reflexivity.
Defined.

Lemma open_failure_can_be_retried_witness :
  (exists cause,
     Exn ConnectionError
       "Failed to setup watch connection: [Errno 111] Connection refused"
     = Exn ConnectionError ("Failed to setup watch connection: " ++ cause)) /\
  client.watch_ch (client.self failed_open_session) = None /\
  client.watch_conn (client.self failed_open_session) = Some 1 /\
  exists hs,
    socket.trace (client.world failed_open_session)
    = [] ++ socket.EvConnect 1 "localhost" 7379 :: hs /\
    (hs = [] \/
     hs = [socket.EvSendall 1 (toy.dumps (client.handshake "6f1e" "watch"))]).
Proof.
  apply (@open_failure_can_be_retried toy.dumps toy.loads watch_refused_session
           failed_open_session); reflexivity.
Defined.

Lemma no_reopen_after_close_witness :
  lifecycle.within (client.Client_watch_ch toy.dumps toy.loads) closed_process
  = (Ret (client.Event 0), closed_process) /\
  lifecycle.Event_is_set 0 closed_process = true.
Proof.
  apply (@no_reopen_after_close toy.dumps toy.loads
           (lifecycle.mkProcess opened_session []) 0).
  reflexivity.
Defined.

(** Closing an open session: the event is set, socket 0 and then
    socket 1 are closed, the attributes stay. *)
Example close_opened_session :
  lifecycle.close (lifecycle.mkProcess opened_session [])
  = (Ret tt,
     lifecycle.mkProcess
       (client.mkState (client.self opened_session)
          (socket.mkWorld [] [] [] 2 2
             [socket.EvConnect 1 "localhost" 7379;
              socket.EvSendall 1 (toy.dumps (client.handshake "6f1e" "watch"));
              socket.EvThreadStart;
              socket.EvClose 0;
              socket.EvClose 1]))
       [0]).
Proof. vm_compute. reflexivity. Qed.

(** A client built with its own token is replaced by one with the
    generated token. *)
Example get_or_create_client_drops_token :
  fst (lifecycle.get_or_create_client toy.dumps toy.loads
         (Some (client.mkClient "db.example" 7000 "mine" (Some 0) None None None))
         "localhost" 7379 "6f1e"
         (socket.mkWorld [None] [None] [toy.reply "+OK"] 1 0 []))
  = Ret (client.mkClient "db.example" 7000 "6f1e" (Some 1) None None None).
Proof. vm_compute. reflexivity. Qed.

(** * The control path as the interpreter runs it *)

(** [fire] with a frame to run in: one cycle, and on a failure the
    reconnect and the nested call. *)
Lemma fire_S (pickle_dumps : wire.Command -> bytes)
    (pickle_loads : bytes -> interp.Outcome interp.pyobject)
    (room : nat) (c : wire.Command) (st : client.State) :
  interp.fire pickle_dumps pickle_loads (S room) c st
  = match interp._fire pickle_dumps pickle_loads room c
            (client.conn (client.self st)) st with
    | (interp.Returned (interp.IsResponse result), st1) =>
        if truthy (wire.err result) then
          match interp.check_and_reconnect pickle_dumps pickle_loads room
                  (wire.err result) st1 with
          | (interp.Returned true, st2) =>
              interp.fire pickle_dumps pickle_loads room c st2
          | (interp.Returned false, st2) => (interp.Returned result, st2)
          | (interp.Raised e, st2) => (interp.Raised e, st2)
          | (interp.Exited b, st2) => (interp.Exited b, st2)
          end
        else (interp.Returned result, st1)
    | (interp.Returned (interp.Other t), st1) =>
        (interp.Raised (interp.has_no_err t), st1)
    | (interp.Raised e, st1) => (interp.Raised e, st1)
    | (interp.Exited b, st1) => (interp.Exited b, st1)
    end.
Proof.
  cbn [interp.fire]. unfold interp.bindN, interp.lift, client.attr, gets.
  destruct (interp._fire _ _ _ _ _ _) as [[[result|t]|e|b] st1]; try reflexivity.
  destruct (truthy (wire.err result)); [|reflexivity].
  destruct (interp.check_and_reconnect _ _ _ _ _) as [[[]|e|b] st2]; reflexivity.
Qed.

(** ** Agreement with the embedding above *)

Section Refinement.
Import wire socket client.

Variable pickle_dumps : Command -> bytes.
Variable pickle_loads : bytes -> PyResult Response.

Lemma deserialize_agrees (data : bytes) :
  interp.deserialize (typed pickle_loads) data
  = as_object (dice_io.deserialize pickle_loads data).
Proof.
  unfold interp.deserialize, dice_io.deserialize, typed.
  destruct (pickle_loads data) as [r|e]; reflexivity.
Qed.

Lemma read_agrees (room : nat) (cn : option fd) (w : World) :
  interp.read (typed pickle_loads) (S room) cn w
  = (as_object (fst (dice_io.read pickle_loads cn w)),
     snd (dice_io.read pickle_loads cn w)).
Proof.
  unfold interp.read, dice_io.read. destruct cn as [s|]; [|reflexivity].
  destruct (dice_io.read_loop (recvs w) []) as [[[|b result]|r|e] rest];
    try reflexivity.
  cbn [interp.call]. rewrite deserialize_agrees. reflexivity.
Qed.

Lemma write_agrees (room : nat) (cn : option fd) (c : Command) (w : World) :
  interp.write pickle_dumps (S room) cn c w
  = (as_outcome (fst (dice_io.write pickle_dumps cn c w)),
     snd (dice_io.write pickle_dumps cn c w)).
Proof.
  unfold interp.write, dice_io.write, interp.try_exceptN, try_except,
    interp.bindN, bind, interp.call, interp.retN, ret, interp.raiseN, raise,
    interp.lift, interp.serialize, dice_io.serialize.
  destruct cn as [s|]; [|reflexivity].
  destruct (sendall s (pickle_dumps c) w) as [[[]|e] w']; reflexivity.
Qed.

Lemma _fire_agrees (room : nat) (c : Command) (cn : option fd) (st : State) :
  interp._fire pickle_dumps (typed pickle_loads) (S (S room)) c cn st
  = (as_object (fst (client._fire pickle_dumps pickle_loads c cn st)),
     snd (client._fire pickle_dumps pickle_loads c cn st)).
Proof.
  unfold interp._fire, client._fire, interp.bindN, bind, interp.call,
    interp.in_world, io.
  rewrite write_agrees.
  destruct (dice_io.write pickle_dumps cn c (world st)) as [[ok|e] w1];
    cbn [fst snd as_outcome]; [|reflexivity].
  destruct ok; cbn [negb]; [|reflexivity].
  cbn [world self]. rewrite read_agrees.
  destruct (dice_io.read pickle_loads cn w1) as [o w2]. reflexivity.
Qed.

Lemma check_and_reconnect_agrees (room : nat) (error : string) (st : State) :
  interp.check_and_reconnect pickle_dumps (typed pickle_loads)
    (S (S (S room))) error st
  = (as_outcome (fst (client.check_and_reconnect pickle_dumps pickle_loads error st)),
     snd (client.check_and_reconnect pickle_dumps pickle_loads error st)).
Proof.
  unfold interp.check_and_reconnect, client.check_and_reconnect.
  destruct (str_in "EOF" error || str_in "Broken pipe" error); [|reflexivity].
  unfold interp.try_exceptN, try_except, interp.bindN, bind, interp.lift,
    interp.call, attr, gets, any_Exception.
  destruct (conn (self st)) as [s|]; cbn [io close ret interp.retN];
    match goal with
    | |- context [client._connect ?s0] =>
        destruct (client._connect s0) as [[[]|e1] st1]; [|reflexivity]
    end;
    rewrite _fire_agrees;
    destruct (client._fire pickle_dumps pickle_loads _ _ st1) as [[resp|e2] st2];
    cbn [fst snd as_object]; try reflexivity;
    destruct (truthy (err resp)); reflexivity.
Qed.

(** On a codec that gives Responses or raises [Exception]s, and with
    room for the calls that [fire] nests (four frames for the deepest
    chain [fire], [check_and_reconnect], [_fire], [write], [serialize],
    and one more per reconnect the network still grants), the
    interpreter-level [fire] is [fire] of the embedding above. *)
Theorem fire_agrees (room : nat) :
  forall (c : Command) (st : State),
    (length (connects (world st)) + 4 <= room)%nat ->
    interp.fire pickle_dumps (typed pickle_loads) room c st
    = (as_outcome (fst (client.fire pickle_dumps pickle_loads c st)),
       snd (client.fire pickle_dumps pickle_loads c st)).
Proof.
  induction room as [|room IH]; intros c st Hroom; [lia|].
  destruct room as [|[|[|room]]]; try lia.
  rewrite fire_S, _fire_agrees, fire_unfold.
  destruct (_fire_spec pickle_dumps pickle_loads c (conn (self st)) st)
    as (r & st1 & E & _ & Hc & _).
  rewrite E. cbn [fst snd]. destruct r as [result|e]; cbn [as_object]; [|reflexivity].
  destruct (truthy (err result)); [|reflexivity].
  rewrite check_and_reconnect_agrees.
  destruct (check_and_reconnect_spec pickle_dumps pickle_loads (err result) st1)
    as (ok & st2 & E2 & _ & _ & _ & _ & Hlt & _).
  rewrite E2. cbn [fst snd as_outcome]. destruct ok; [|reflexivity].
  specialize (Hlt eq_refl). rewrite Hc in Hlt.
  apply IH. lia.
Qed.

End Refinement.
(** ** One cycle, whatever unpickling does *)


Section InterpFacts.
Import wire socket client.

Variable pickle_dumps : Command -> bytes.
Variable pickle_loads : bytes -> interp.Outcome interp.pyobject.


















End InterpFacts.

(** ** client.py: the watch loop on socket failures *)

Section WatchOnSockets.
Import wire socket client.

Variable pickle_dumps : Command -> bytes.
Variable pickle_loads : bytes -> PyResult Response.



End WatchOnSockets.

(** * Failures, on the interpreter-level embedding *)

(** ** io.py: [deserialize] *)




(** ** client.py: failures on the control path *)

Section ControlPathClaims.
Import wire socket client.

Variable pickle_dumps : Command -> bytes.
Variable pickle_loads : bytes -> interp.Outcome interp.pyobject.

Local Abbreviation _fire := (interp._fire pickle_dumps pickle_loads).
Local Abbreviation check_and_reconnect :=
  (interp.check_and_reconnect pickle_dumps pickle_loads).
Local Abbreviation fire := (interp.fire pickle_dumps pickle_loads).
Local Abbreviation fire_string := (interp.fire_string pickle_dumps pickle_loads).
Local Abbreviation __init__ := (interp.__init__ pickle_dumps pickle_loads).



End ControlPathClaims.

(** ** client.py: reconnections *)




(** ** Concrete sessions *)




(** ** The recursion limit on a concrete session *)

(** On the flaky session [PING] goes out three times when the stack has
    room for the two nested calls; with one frame less the second
    reconnect has no room for its handshake, fails, and the failure of
    the second cycle is the answer: at the recursion limit [fire]
    returns an error Response, it does not raise. *)
Example flaky_session_with_room :
  fst (interp.fire toy.dumps raw_loads 5 PING flaky_session)
  = interp.Returned PONG.
Proof. vm_compute. reflexivity. Qed.

Example flaky_session_at_the_limit :
  interp.fire toy.dumps raw_loads 4 PING flaky_session
  = (interp.Returned
       (wire.error_response "EOF occurred in violation of protocol"),
     client.mkState
       (client.mkClient "localhost" 7379 "6f1e" (Some 2) None None None)
       (socket.mkWorld [] [None; None] [toy.reply "+OK"; toy.reply "+PONG"] 3 0
          [socket.EvSendall 0 (toy.dumps PING);
           socket.EvClose 0;
           socket.EvConnect 1 "localhost" 7379;
           socket.EvSendall 1 (toy.dumps (client.handshake "6f1e" "command"));
           socket.EvSendall 1 (toy.dumps PING);
           socket.EvClose 1;
           socket.EvConnect 2 "localhost" 7379])).
Proof. vm_compute. reflexivity. Qed.

(** A reply to the command that unpickles to an integer: [result.err]
    raises. *)
Example integer_reply_raises :
  fst (interp.fire toy.dumps raw_loads 3 PING
         (client.mkState connected_client
            (socket.mkWorld [] [None] [socket.RecvData int_pickle] 1 0 [])))
  = interp.Raised (interp.has_no_err "int").
Proof. vm_compute. reflexivity. Qed.
